(** * simplept.cpp: a Monte Carlo path tracer over a scene of eight spheres

    A shallow embedding of
    [Project2/Part2/backup4_seprateIndirAndDir_gy/simplept.cpp].

    The program computes on [double].  The embedding is written once over an
    interface [Arith] of the scalar operations the source uses, so that the
    control flow, the order of the random draws and the shape of every
    formula are those of the source for any arithmetic.  The interface has
    two instances: the real numbers, where the geometric and numeric
    statements are proved in exact arithmetic, and IEEE binary64, where the
    embedding runs.

    One worker is modelled: its generator is a stream of variates, and the
    rendering loops run in the order of the source.  The progress line of
    [main] and the failure of [fopen] are left out. *)

From Stdlib Require Import Floats.
From Stdlib Require Uint63.
From Stdlib Require Import ZArith QArith Reals Qreals Lra Lia Psatz List Bool.
From Stdlib Require Import String Ascii DecimalString.
From Stdlib Require DecimalPos.
Import ListNotations.

Set Implicit Arguments.

(** ** Scalars *)

(** The operations of [double] used by the source.  [lit q] is the source
    literal whose decimal value is [q]; [ltb] and [eqb] are [<] and [==];
    [to_int] is [static_cast<int>]; [of_int] is the implicit conversion of an
    [int] operand. *)
Class Arith (F : Type) : Type := {
  lit    : Q -> F;
  of_int : Z -> F;
  fadd   : F -> F -> F;
  fsub   : F -> F -> F;
  fmul   : F -> F -> F;
  fdiv   : F -> F -> F;
  fsqrt  : F -> F;
  fcos   : F -> F;
  fsin   : F -> F;
  fabs   : F -> F;
  fpow   : F -> F -> F;
  ltb    : F -> F -> bool;
  eqb    : F -> F -> bool;
  to_int : F -> Z
}.

Declare Scope fl_scope.
Delimit Scope fl_scope with fl.
Notation "a + b" := (fadd a b) : fl_scope.
Notation "a - b" := (fsub a b) : fl_scope.
Notation "a * b" := (fmul a b) : fl_scope.
Notation "a / b" := (fdiv a b) : fl_scope.
Notation "a <? b" := (ltb a b) : fl_scope.
Notation "a >? b" := (ltb b a) : fl_scope.
Notation "a =? b" := (eqb a b) : fl_scope.
Notation "# q" := (lit q%Q) (at level 1, q constr at level 0, format "# q") : fl_scope.

(** [#define PI 3.1415926535897932384626433832795] *)
Definition PI {F} `{Arith F} : F := lit 3.1415926535897932384626433832795.

(** ** Basic data types *)

Module Vec.
Section Ops.
Context {F : Type} `{Arith F}.
Local Open Scope fl_scope.

Record t : Type := mk { x : F; y : F; z : F }.

(** [Vec()]: every component defaults to 0. *)
Definition zero : t := mk #0 #0 #0.

Definition add (a b : t) : t := mk (x a + x b) (y a + y b) (z a + z b).
Definition sub (a b : t) : t := mk (x a - x b) (y a - y b) (z a - z b).
Definition scale (a : t) (b : F) : t := mk (x a * b) (y a * b) (z a * b).

(** [operator==] *)
Definition equal (a b : t) : bool :=
  if (x a =? x b) && (y a =? y b) && (z a =? z b) then true else false.

Definition mult (a b : t) : t := mk (x a * x b) (y a * y b) (z a * z b).
Definition normalize (a : t) : t :=
  scale a (#1.0 / fsqrt (x a * x a + y a * y a + z a * z a)).
Definition dot (a b : t) : F := x a * x b + y a * y b + z a * z b.
Definition cross (a b : t) : t :=
  mk (y a * z b - z a * y b) (z a * x b - x a * z b) (x a * y b - y a * x b).
End Ops.
Arguments t F : clear implicits.
End Vec.

Abbreviation Vec := Vec.t.

Module Ray.
Record t (F : Type) : Type := mk { o : Vec F; d : Vec F }.
End Ray.
Abbreviation Ray := Ray.t.

(** ** The random number generator *)

(** [rng()] returns the next variate of the calling worker's engine.  One
    worker's engine is a stream of variates; a drawing computation takes the
    stream and returns its value with the rest of the stream. *)
Definition Rng (F : Type) : Type := nat -> F.
Definition Draw (F A : Type) : Type := Rng F -> A * Rng F.

Definition ret {F A} (a : A) : Draw F A := fun s => (a, s).
Definition bind {F A B} (m : Draw F A) (k : A -> Draw F B) : Draw F B :=
  fun s => let (a, s') := m s in k a s'.
Definition rng {F} : Draw F F := fun s => (s 0%nat, fun k => s (S k)).

Declare Scope draw_scope.
Delimit Scope draw_scope with draw.
Notation "v <- m ;; k" := (bind m (fun v => k))
  (at level 61, m at next level, right associativity) : draw_scope.
Notation "' p <- m ;; k" := (bind m (fun v => let p := v in k))
  (at level 61, p pattern, m at next level, right associativity) : draw_scope.

(** ** Utility functions *)

Section Utility.
Context {F : Type} `{Arith F}.
Local Open Scope fl_scope.

Definition clamp (x : F) : F :=
  if x <? #0 then #0 else if x >? #1 then #1 else x.

Definition toInt (x : F) : Z :=
  to_int (fpow (clamp x) (#1.0 / #2.2) * #255 + #0.5).
End Utility.

(** ** Reflectance models *)

(** [struct BRDF] has two subclasses; a sphere refers to one of them through
    [const BRDF &], and [eval] and [sample] dispatch on it. *)
Inductive BRDF (F : Type) : Type :=
| DiffuseBRDF (kd : Vec F)
| SpecularBRDF (ks : Vec F).

Section Sampling.
Context {F : Type} `{Arith F}.
Local Open Scope fl_scope.
Local Open Scope draw_scope.

(** [createLocalCoord(n, u, v, w)]: the three results are returned. *)
Definition createLocalCoord (n : Vec F) : Vec F * Vec F * Vec F :=
  let w := n in
  let u := Vec.normalize
             (Vec.cross (if fabs (Vec.x w) >? #0.1 then Vec.mk #0 #1 #0
                         else Vec.mk #1 #0 #0) w) in
  let v := Vec.cross w u in
  (u, v, w).

Definition DiffuseBRDF_eval (kd n o i : Vec F) : Vec F :=
  Vec.scale kd (#1.0 / PI).

Definition DiffuseBRDF_sample (kd n o : Vec F) : Draw F (Vec F * F) :=
  u1 <- rng ;;
  let z := fsqrt u1 in
  let r := fsqrt (#1.0 - z * z) in
  u2 <- rng ;;
  let phi := #2.0 * PI * u2 in
  let x := r * fcos phi in
  let y := r * fsin phi in
  let '(u, v, w) := createLocalCoord n in
  let i := Vec.normalize
             (Vec.add (Vec.add (Vec.scale u x) (Vec.scale v y)) (Vec.scale w z)) in
  let pdf := Vec.dot n i / PI in
  ret (i, pdf).

Definition mirroredDirection (_n _o : Vec F) : Vec F :=
  Vec.sub (Vec.scale (Vec.scale _n (Vec.dot _n _o)) #2.0) _o.

Definition SpecularBRDF_eval (ks n o i : Vec F) : Vec F :=
  if Vec.equal i (mirroredDirection n o)
  then Vec.scale ks (#1.0 / Vec.dot n i)
  else Vec.zero.

Definition SpecularBRDF_sample (ks n o : Vec F) : Draw F (Vec F * F) :=
  let i := mirroredDirection n o in
  let pdf := #1.0 in
  ret (i, pdf).

(** Virtual dispatch. *)
Definition eval (brdf : BRDF F) (n o i : Vec F) : Vec F :=
  match brdf with
  | DiffuseBRDF kd => DiffuseBRDF_eval kd n o i
  | SpecularBRDF ks => SpecularBRDF_eval ks n o i
  end.

Definition sample (brdf : BRDF F) (n o : Vec F) : Draw F (Vec F * F) :=
  match brdf with
  | DiffuseBRDF kd => DiffuseBRDF_sample kd n o
  | SpecularBRDF ks => SpecularBRDF_sample ks n o
  end.
End Sampling.

(** ** Shapes *)

Module Sphere.
Section Ops.
Context {F : Type} `{Arith F}.
Local Open Scope fl_scope.

Record t : Type := mk { rad : F; p : Vec F; e : Vec F; brdf : BRDF F }.

(** Returns the distance, 0 if there is no hit. *)
Definition intersect (s : t) (r : Ray F) : F :=
  let op := Vec.sub (p s) (Ray.o r) in
  let eps := #1e-4 in
  let b := Vec.dot op (Ray.d r) in
  let det := b * b - Vec.dot op op + rad s * rad s in
  if det <? #0 then #0
  else
    let det := fsqrt det in
    let t := b - det in
    if t >? eps then t
    else let t := b + det in
         if t >? eps then t else #0.
End Ops.
Arguments t F : clear implicits.
End Sphere.

Abbreviation Sphere := Sphere.t.

(** ** Scene configuration *)

Section Scene.
Context {F : Type} `{Arith F}.
Local Open Scope fl_scope.

Definition leftWall : BRDF F := DiffuseBRDF (Vec.mk #0.75 #0.25 #0.25).
Definition rightWall : BRDF F := DiffuseBRDF (Vec.mk #0.25 #0.25 #0.75).
Definition otherWall : BRDF F := DiffuseBRDF (Vec.mk #0.75 #0.75 #0.75).
Definition blackSurf : BRDF F := DiffuseBRDF (Vec.mk #0.0 #0.0 #0.0).
Definition brightSurf : BRDF F := DiffuseBRDF (Vec.mk #0.9 #0.9 #0.9).
Definition brightSurf_s : BRDF F := SpecularBRDF (Vec.mk #0.999 #0.999 #0.999).

(** The list of spheres.  [-1e5] is the negated literal. *)
Definition spheres : list (Sphere F) :=
  [ Sphere.mk #1e5 (Vec.mk (#1e5 + #1) #40.8 #81.6) Vec.zero leftWall;
    Sphere.mk #1e5 (Vec.mk (#(-1e5) + #99) #40.8 #81.6) Vec.zero rightWall;
    Sphere.mk #1e5 (Vec.mk #50 #40.8 #1e5) Vec.zero otherWall;
    Sphere.mk #1e5 (Vec.mk #50 #1e5 #81.6) Vec.zero otherWall;
    Sphere.mk #1e5 (Vec.mk #50 (#(-1e5) + #81.6) #81.6) Vec.zero otherWall;
    Sphere.mk #16.5 (Vec.mk #27 #16.5 #47) Vec.zero brightSurf;
    Sphere.mk #16.5 (Vec.mk #73 #16.5 #78) Vec.zero brightSurf_s;
    Sphere.mk #5.0 (Vec.mk #50 #70.0 #81.6) (Vec.mk #50 #50 #50) blackSurf ].

(** [spheres[i]]; the source only indexes inside the array. *)
Definition sphere_at (i : nat) : Sphere F :=
  nth i spheres (Sphere.mk #0 Vec.zero Vec.zero blackSurf).

(** Camera position and direction. *)
Definition cam : Ray F :=
  Ray.mk (Vec.mk #50 #52 #295.6) (Vec.normalize (Vec.mk #0 #(-0.042612) #(-1))).

(** The loop of [intersect]: [for ( int i = int(n); i--;)], with [t] and
    [id] the values assigned so far. *)
Fixpoint intersect_loop (i : nat) (r : Ray F) (t : F) (id : nat) : F * nat :=
  match i with
  | O => (t, id)
  | S i =>
      let d := Sphere.intersect (sphere_at i) r in
      if negb (d =? #0) && (d <? t) then intersect_loop i r d i
      else intersect_loop i r t id
  end.

(** [intersect(r, t, id)]: the result, with the final [t] and [id]; [id] is
    an in-out parameter and keeps the caller's value on a miss. *)
Definition intersect (r : Ray F) (id : nat) : bool * F * nat :=
  let n := List.length spheres in
  let inf := #1e20 in
  let '(t, id) := intersect_loop n r inf id in
  (t <? inf, t, id).
End Scene.

(** ** The radiance estimator *)

(** The recursion of the estimator has no bound in the source.  A run is
    given a number of nested calls it may make ([fuel]) and yields [None]
    when that number is exceeded. *)
Definition Run (F A : Type) : Type := Rng F -> option (A * Rng F).

Definition lift {F A} (m : Draw F A) : Run F A := fun s => Some (m s).
Definition done {F A} (a : A) : Run F A := fun s => Some (a, s).
Definition out_of_fuel {F A} : Run F A := fun _ => None.
Definition then_ {F A B} (m : Run F A) (k : A -> Run F B) : Run F B :=
  fun s => match m s with
           | Some (a, s') => k a s'
           | None => None
           end.

Declare Scope run_scope.
Delimit Scope run_scope with run.
Notation "v <- m ;; k" := (then_ m (fun v => k))
  (at level 61, m at next level, right associativity) : run_scope.
Notation "' p <- m ;; k" := (then_ m (fun v => let p := v in k))
  (at level 61, p pattern, m at next level, right associativity) : run_scope.

(** The two operands of [directedRadiance(..) + indirectedRadiance(..)] both
    draw from the generator and C++ leaves their order of evaluation open. *)
Inductive Order : Type := DirectFirst | IndirectFirst.

Section Estimator.
Context {F : Type} `{Arith F}.
Variable ord : Order.
Local Open Scope fl_scope.

Definition emittedRadiance (obj : Sphere F) : Vec F := Sphere.e obj.

(** [luminaireSample(obj, p, n, pdf)] returns [(p, n, pdf)]. *)
Definition luminaireSample (obj : Sphere F) : Draw F (Vec F * Vec F * F) :=
  (sigma1 <- rng ;;
   sigma2 <- rng ;;
   let z := #2 * sigma1 - #1 in
   let x := fsqrt (#1 - z * z) * fcos (#2 * PI * sigma2) in
   let y := fsqrt (#1 - z * z) * fsin (#2 * PI * sigma2) in
   let n := Vec.mk x y z in
   let p := Vec.add (Sphere.p obj) (Vec.scale n (Sphere.rad obj)) in
   let pdf := #1 / (#4 * PI * Sphere.rad obj * Sphere.rad obj) in
   ret (p, n, pdf))%draw.

(** [id] is not initialised before the call of [intersect] here and is not
    read after it; the call is given 0. *)
Definition directedRadiance (x o : Vec F) (obj : Sphere F) (flag : bool)
  : Draw F (Vec F) :=
  (let n := Vec.normalize (Vec.sub x (Sphere.p obj)) in
   let n := if Vec.dot n o <? #0 then Vec.scale n #(-1.0) else n in
   let brdf := Sphere.brdf obj in
   let obj_l := sphere_at 7 in
   '(x_l, n_l, pdf_l) <- luminaireSample obj_l ;;
   let i := Vec.normalize (Vec.sub x_l x) in
   let disXtoXl := Vec.dot (Vec.sub x_l x) (Vec.sub x_l x) in
   let '(_, t, _) := intersect (Ray.mk x i) 0 in
   let x_hit := Vec.add x (Vec.scale i t) in
   if Vec.dot (Vec.sub x_hit x_l) (Vec.sub x_hit x_l) <? #0.0001
   then ret (Vec.scale
               (Vec.scale
                  (Vec.scale (Vec.mult (emittedRadiance obj_l) (eval brdf n o i))
                             (Vec.dot n i))
                  (Vec.dot n_l (Vec.sub Vec.zero i)))
               (#1 / (disXtoXl * pdf_l)))
   else ret Vec.zero)%draw.

Fixpoint receivedRadiance (fuel : nat) (r : Ray F) (depth : Z) (flag : bool)
  {struct fuel} : Run F (Vec F) :=
  match fuel with
  | O => out_of_fuel
  | S fuel =>
      let '(hit, t, id) := intersect r 0 in
      if negb hit then done Vec.zero
      else
        let obj := sphere_at id in
        let x := Vec.add (Ray.o r) (Vec.scale (Ray.d r) t) in
        let o := Vec.normalize (Vec.sub Vec.zero (Ray.d r)) in
        (L <- reflectedRadiance fuel x o obj depth flag ;;
         done (Vec.add (emittedRadiance obj) L))%run
  end

with reflectedRadiance (fuel : nat) (x o : Vec F) (obj : Sphere F) (depth : Z)
  (flag : bool) {struct fuel} : Run F (Vec F) :=
  match fuel with
  | O => out_of_fuel
  | S fuel =>
      match ord with
      | DirectFirst =>
          (a <- lift (directedRadiance x o obj flag) ;;
           b <- indirectedRadiance fuel x o obj depth flag ;;
           done (Vec.add a b))%run
      | IndirectFirst =>
          (b <- indirectedRadiance fuel x o obj depth flag ;;
           a <- lift (directedRadiance x o obj flag) ;;
           done (Vec.add a b))%run
      end
  end

with indirectedRadiance (fuel : nat) (x o : Vec F) (obj : Sphere F) (depth : Z)
  (flag : bool) {struct fuel} : Run F (Vec F) :=
  match fuel with
  | O => out_of_fuel
  | S fuel =>
      let p := if (depth <=? 5)%Z then #1.0 else #0.9 in
      (u <- lift rng ;;
       if u >? p then done Vec.zero
       else
         let n := Vec.normalize (Vec.sub x (Sphere.p obj)) in
         let n := if Vec.dot n o <? #0 then Vec.scale n #(-1.0) else n in
         let brdf := Sphere.brdf obj in
         '(i, pdf) <- lift (sample brdf n o) ;;
         L <- receivedRadiance fuel (Ray.mk x i) (depth + 1) flag ;;
         done (Vec.scale (Vec.scale (Vec.mult L (eval brdf n o i)) (Vec.dot n i))
                         (#1 / (pdf * p))))%run
  end.
End Estimator.

(** ** Main function *)

(** [atoi] as the C library of the platform has it,
    [(int) strtol(s, NULL, 10)]: leading white space, an optional sign, then
    decimal digits up to the first character that is not one; 0 when there
    is no digit.  [strtol] keeps a value outside the range of [long] at the
    nearest bound, and the conversion to [int] keeps the low 32 bits. *)
Definition isspace (c : ascii) : bool :=
  match nat_of_ascii c with
  | 32%nat | 9%nat | 10%nat | 11%nat | 12%nat | 13%nat => true
  | _ => false
  end.

Definition digit_of (c : ascii) : option Z :=
  let n := Z.of_nat (nat_of_ascii c) in
  if ((48 <=? n) && (n <=? 57))%Z then Some (n - 48)%Z else None.

Fixpoint skip_spaces (s : string) : string :=
  match s with
  | String c s' => if isspace c then skip_spaces s' else s
  | EmptyString => s
  end.

Fixpoint atoi_digits (acc : Z) (s : string) : Z :=
  match s with
  | String c s' =>
      match digit_of c with
      | Some d => atoi_digits (10 * acc + d) s'
      | None => acc
      end
  | EmptyString => acc
  end.

Definition strtol (s : string) : Z :=
  let v :=
    match skip_spaces s with
    | String "-" s' => (- atoi_digits 0 s')%Z
    | String "+" s' => atoi_digits 0 s'
    | s' => atoi_digits 0 s'
    end in
  Z.max (- 2 ^ 63) (Z.min (2 ^ 63 - 1) v).

(** The conversion of a [long] to [int]: two's complement on 32 bits. *)
Definition int_of_long (v : Z) : Z := ((v + 2 ^ 31) mod 2 ^ 32 - 2 ^ 31)%Z.

Definition atoi (s : string) : Z := int_of_long (strtol s).

(** [samps = argc==2 ? atoi(argv[1])/4 : 1]; [argv] holds the program name
    and the arguments, and [/] on [int] rounds toward zero. *)
Definition main_samps (argv : list string) : Z :=
  if (List.length argv =? 2)%nat then Z.quot (atoi (nth 1 argv EmptyString)) 4
  else 1%Z.

(** What a run of [main] leaves: its return value and the text written to
    [image.ppm]. *)
Record Outcome : Type := { exit_status : Z; image_ppm : string }.

(** ["%d"] *)
Definition print_int (n : Z) : string := NilZero.string_of_int (Z.to_int n).

Definition newline : string := String (ascii_of_nat 10) EmptyString.

Section Main.
Context {F : Type} `{Arith F}.
Variable ord : Order.
Local Open Scope fl_scope.

(** [for ( int i = lo; i < lo + n; i++ ) a = body(i, a)] *)
Fixpoint for_ {A} (n : nat) (lo : Z) (body : Z -> A -> Run F A) (a : A)
  : Run F A :=
  match n with
  | O => done a
  | S n => (a' <- body lo a ;; for_ n (lo + 1) body a')%run
  end.

(** [c[i] = v] *)
Fixpoint store (c : list (Vec F)) (i : nat) (v : Vec F) : list (Vec F) :=
  match c, i with
  | [], _ => []
  | _ :: c', O => v :: c'
  | a :: c', S i' => a :: store c' i' v
  end.

Definition load (c : list (Vec F)) (i : nat) : Vec F := nth i c Vec.zero.

(** The body of the innermost loop: one camera ray through the subpixel
    [(sx, sy)] of the pixel [(x, y)], added to [r]. *)
Definition one_sample (fuel : nat) (w h samps : Z) (cx cy : Vec F)
  (x y sx sy : Z) (r : Vec F) : Run F (Vec F) :=
  (r1 <- lift (u <- rng ;; ret (#2 * u))%draw ;;
   let dx := if r1 <? #1 then fsqrt r1 - #1 else #1 - fsqrt (#2 - r1) in
   r2 <- lift (u <- rng ;; ret (#2 * u))%draw ;;
   let dy := if r2 <? #1 then fsqrt r2 - #1 else #1 - fsqrt (#2 - r2) in
   let d :=
     Vec.add
       (Vec.add
          (Vec.scale cx (((of_int sx + #0.5 + dx) / #2 + of_int x) / of_int w - #0.5))
          (Vec.scale cy (((of_int sy + #0.5 + dy) / #2 + of_int y) / of_int h - #0.5)))
       (Ray.d cam) in
   L <- receivedRadiance ord fuel (Ray.mk (Ray.o cam) (Vec.normalize d)) 1 true ;;
   done (Vec.add r (Vec.scale L (#1.0 / of_int samps))))%run.

(** The rendering loops, run by one worker; every call of the estimator may
    nest [fuel] deep. *)
Definition render (fuel : nat) (w h samps : Z) : Run F (list (Vec F)) :=
  let cx := Vec.mk (of_int w * #0.5135 / of_int h) #0 #0 in
  let cy := Vec.scale (Vec.normalize (Vec.cross cx (Ray.d cam))) #0.5135 in
  let c := repeat Vec.zero (Z.to_nat (w * h)) in
  for_ (Z.to_nat h) 0 (fun y =>
    for_ (Z.to_nat w) 0 (fun x =>
      let i := Z.to_nat ((h - y - 1) * w + x) in
      for_ 2 0 (fun sy =>
        for_ 2 0 (fun sx c =>
          (r <- for_ (Z.to_nat samps) 0
                  (fun _ => one_sample fuel w h samps cx cy x y sx sy) Vec.zero ;;
           done (store c i
                   (Vec.add (load c i)
                      (Vec.scale
                         (Vec.mk (clamp (Vec.x r)) (clamp (Vec.y r)) (clamp (Vec.z r)))
                         #0.25))))%run)))) c.

(** The three numbers printed for a pixel. *)
Definition pixel_ints (v : Vec F) : list Z :=
  [toInt (Vec.x v); toInt (Vec.y v); toInt (Vec.z v)].

(** ["P3\n%d %d\n%d\n"] with [w], [h] and 255. *)
Definition ppm_header (w h : Z) : string :=
  ("P3" ++ newline ++ print_int w ++ " " ++ print_int h ++ newline
   ++ print_int 255 ++ newline)%string.

(** ["%d %d %d "] for every element of [c]. *)
Definition ppm_body (c : list (Vec F)) : string :=
  String.concat EmptyString
    (map (fun n => (print_int n ++ " ")%string) (flat_map pixel_ints c)).

Definition main (fuel : nat) (argv : list string) : Run F Outcome :=
  let w := 480%Z in
  let h := 360%Z in
  let samps := main_samps argv in
  (c <- render fuel w h samps ;;
   done {| exit_status := 0;
           image_ppm := (ppm_header w h ++ ppm_body c)%string |})%run.
End Main.

(** ** Exact arithmetic *)

Definition Rltb (a b : R) : bool := if Rlt_dec a b then true else false.
Definition Reqb (a b : R) : bool := if Req_dec_T a b then true else false.

(** [static_cast<int>] drops the fractional part. *)
Definition Rtrunc (a : R) : Z :=
  if Rle_dec 0 a then Int_part a else (- Int_part (- a))%Z.

(** [std::pow] on the arguments where it has a real value: a positive base,
    or base 0 with a non-negative exponent. *)
Definition Rpow (a b : R) : R :=
  if Req_dec_T a 0 then (if Req_dec_T b 0 then 1%R else 0%R) else Rpower a b.

#[export] Instance R_Arith : Arith R := {
  lit := Q2R;
  of_int := IZR;
  fadd := Rplus;
  fsub := Rminus;
  fmul := Rmult;
  fdiv := Rdiv;
  fsqrt := sqrt;
  fcos := cos;
  fsin := sin;
  fabs := Rabs;
  fpow := Rpow;
  ltb := Rltb;
  eqb := Reqb;
  to_int := Rtrunc
}.

(** ** Binary64 arithmetic *)

(** The arithmetic the program runs on: [double] as IEEE binary64, through
    the primitive floats.  [cos], [sin] and [pow] come from the C library
    and are left open. *)
Class Libm : Type := {
  libm_cos : float -> float;
  libm_sin : float -> float;
  libm_pow : float -> float -> float
}.

(** [n / d] rounded to the nearest integer, ties to even ([0 <= n], [0 < d]). *)
Definition div_nearest_even (n d : Z) : Z :=
  let q := (n / d)%Z in
  let r := (n mod d)%Z in
  match (2 * r ?= d)%Z with
  | Lt => q
  | Gt => (q + 1)%Z
  | Eq => if Z.even q then q else (q + 1)%Z
  end.

(** [n / (d * 2^e)] rounded likewise. *)
Definition scaled_ratio (n d e : Z) : Z :=
  if (0 <=? e)%Z then div_nearest_even n (d * 2 ^ e)
  else div_nearest_even (n * 2 ^ (- e)) d.

Definition float_of_Z (z : Z) : float :=
  if (z <? 0)%Z then PrimFloat.opp (PrimFloat.of_uint63 (Uint63.of_Z (- z)))
  else PrimFloat.of_uint63 (Uint63.of_Z z).

(** The binary64 number nearest to [n / d], for positive [n] and [d] in the
    normal range: a 53-bit significand and its exponent. *)
Definition float_of_ratio (n d : Z) : float :=
  let e := (Z.log2 n - Z.log2 d - 53)%Z in
  let e := if (2 ^ 53 <=? scaled_ratio n d e)%Z then (e + 1)%Z else e in
  Z.ldexp (float_of_Z (scaled_ratio n d e)) e.

(** A decimal literal as the compiler reads it. *)
Definition float_of_Q (q : Q) : float :=
  let q := Qred q in
  match Qnum q with
  | Z0 => 0%float
  | Zpos n => float_of_ratio (Zpos n) (Zpos (Qden q))
  | Zneg n => PrimFloat.opp (float_of_ratio (Zpos n) (Zpos (Qden q)))
  end.

(** [static_cast<int>] of a finite value in the range of [int]; the result
    for the others is the one of x86-64. *)
Definition float_to_int (f : float) : Z :=
  match Prim2SF f with
  | S754_finite s m e =>
      let v := if (0 <=? e)%Z then (Zpos m * 2 ^ e)%Z
               else (Zpos m / 2 ^ (- e))%Z in
      if s then (- v)%Z else v
  | S754_zero _ => 0%Z
  | _ => (-2147483648)%Z
  end.

#[export] Instance binary64 `{Libm} : Arith float := {
  lit := float_of_Q;
  of_int := float_of_Z;
  fadd := PrimFloat.add;
  fsub := PrimFloat.sub;
  fmul := PrimFloat.mul;
  fdiv := PrimFloat.div;
  fsqrt := PrimFloat.sqrt;
  fcos := libm_cos;
  fsin := libm_sin;
  fabs := PrimFloat.abs;
  fpow := libm_pow;
  ltb := PrimFloat.ltb;
  eqb := PrimFloat.eqb;
  to_int := float_to_int
}.

(** ** Vocabulary of the statements *)

(** The normal the two reflected terms use at [x]: the normal of the sphere,
    turned to the side of [o]. *)
Definition facing_normal {F} `{Arith F} (x o : Vec F) (obj : Sphere F) : Vec F :=
  let n := Vec.normalize (Vec.sub x (Sphere.p obj)) in
  if (Vec.dot n o <? #0)%fl then Vec.scale n (lit (-1.0)) else n.

Section Geometry.
Local Open Scope R_scope.

Definition unit_length (v : Vec R) : Prop := Vec.dot v v = 1.

(** [t^2 (d.d) + 2 t (o-p).d + (o-p).(o-p) - r^2] for the ray [o + t d] and
    the sphere of centre [p] and radius [r]. *)
Definition quadratic (s : Sphere R) (r : Ray R) (t : R) : R :=
  let o_p := Vec.sub (Ray.o r) (Sphere.p s) in
  t * t * Vec.dot (Ray.d r) (Ray.d r) + 2 * t * Vec.dot o_p (Ray.d r)
  + Vec.dot o_p o_p - Sphere.rad s * Sphere.rad s.

Definition smallest_root_above (s : Sphere R) (r : Ray R) (eps t : R) : Prop :=
  quadratic s r t = 0 /\ eps < t /\
  forall t', quadratic s r t' = 0 -> eps < t' -> t <= t'.

Definition no_root_above (s : Sphere R) (r : Ray R) (eps : R) : Prop :=
  forall t, quadratic s r t = 0 -> ~ eps < t.

(** What the per-sphere test is said to return. *)
Definition nearest_root (s : Sphere R) (r : Ray R) (v : R) : Prop :=
  smallest_root_above s r 1e-4 v \/ (no_root_above s r 1e-4 /\ v = 0).

(** The distance the [i]-th sphere of the scene reports for [r]. *)
Definition distance_to (r : Ray R) (i : nat) : R :=
  Sphere.intersect (sphere_at i) r.

(** What the scene-level [intersect] is said to return. *)
Definition nearest_hit (r : Ray R) (res : bool * R * nat) : Prop :=
  let '(hit, t, id) := res in
  (hit = false <->
   ~ exists i, (i < 8)%nat /\ 0 < distance_to r i /\ distance_to r i < 1e20) /\
  (hit = true ->
   (id < 8)%nat /\ t = distance_to r id /\ 0 < t /\
   forall i, (i < 8)%nat -> 0 < distance_to r i -> t <= distance_to r i).
End Geometry.

(** [s'] is what is left of the stream [s] after [m] draws. *)
Definition drawn {F} (m : nat) (s s' : Rng F) : Prop :=
  forall k : nat, s' k = s (m + k)%nat.

(** The offset of a sample inside its subpixel, as [main] computes [dx] and
    [dy] from [r1 = 2*rng()] and [r2]. *)
Definition tent {F} `{Arith F} (r1 : F) : F :=
  (if r1 <? #1 then fsqrt r1 - #1 else #1 - fsqrt (#2 - r1))%fl.

(** The survival probability of [indirectedRadiance]. *)
Definition survival (depth : Z) : R := if (depth <=? 5)%Z then 1%R else 0.9%R.

(** ** Concrete inputs *)

Section Inputs.
Local Open Scope R_scope.

(** A stream of variates: 1/4, then 1/2 for ever. *)
Definition sample_stream : Rng R :=
  fun k => match k with O => 1 / 4 | _ => 1 / 2 end.

(** The stream whose variates are all 0. *)
Definition zero_stream : Rng R := fun _ => 0.

(** The stream whose variates are all 0.95. *)
Definition high_stream : Rng R := fun _ => 0.95.

(** A ray toward Ball 1 (the sphere 5) whose direction has length 2, from a
    point 66 in front of its centre. *)
Definition long_ray : Ray R := Ray.mk (Vec.mk 27 16.5 (-19)) (Vec.mk 0 0 2).

(** The same ray with its direction normalised. *)
Definition unit_ray : Ray R := Ray.mk (Vec.mk 27 16.5 (-19)) (Vec.mk 0 0 1).

(** The ray from the same point that turns its back on Ball 1. *)
Definition back_ray : Ray R := Ray.mk (Vec.mk 27 16.5 (-19)) (Vec.mk 0 0 (-1)).

(** A ray along the z axis that passes the left wall (the sphere 0) on the
    outside, about 1e-4 away from it.  Its coordinates are binary64 numbers,
    given exactly: about (1.0000379216362485, 38.04603506325135,
    81.60219820349509). *)
Definition grazing_ray : Ray R :=
  Ray.mk (Vec.mk (2251885205618687 / 2251799813685248)
                 (2677251708340369 / 70368744177664)
                 (5742244209716779 / 70368744177664))
         (Vec.mk 0 0 1).
End Inputs.

Section Inputs64.
Local Open Scope float_scope.

(** [long_ray] in binary64; its coordinates are exact. *)
Definition long_ray64 : Ray float := Ray.mk (Vec.mk 27 16.5 (-19)) (Vec.mk 0 0 2).

(** The ray from the camera along its axis. *)
Definition axis_ray64 `{Libm} : Ray float := cam.

(** A C library for the runs that call [cos], [sin] and [pow] on a NaN at
    most: there each returns a NaN, as Annex F of the C standard has it
    (for [pow], with an exponent other than 0). *)
Definition libm_uncalled : Libm :=
  {| libm_cos := fun _ => nan; libm_sin := fun _ => nan;
     libm_pow := fun _ _ => nan |}.

(** [grazing_ray] in binary64. *)
Definition grazing_ray64 : Ray float :=
  Ray.mk (Vec.mk 0x1.00027c382fffep+0 0x1.305e47a199122p+5 0x1.4668a6a556e2bp+6)
         (Vec.mk 0 0 1).

(** A ray that starts outside the scene and leaves it. *)
Definition away_ray64 : Ray float := Ray.mk (Vec.mk 0 0 1e6) (Vec.mk 0 0 1).
End Inputs64.

(** * Properties *)

Unset Implicit Arguments.

(** ** Any arithmetic: the shape of the estimator *)

Section Shape.
Context {F : Type} `{Arith F}.
Variable ord : Order.
Local Open Scope fl_scope.

(** [operator==] holds when [==] holds on every component. *)
Lemma Vec_equal_components (a b : Vec F) :
  Vec.equal a b =
  (Vec.x a =? Vec.x b) && (Vec.y a =? Vec.y b) && (Vec.z a =? Vec.z b).
Proof. unfold Vec.equal. now destruct (_ && _ && _). Qed.

Lemma SpecularBRDF_S (ks n o i : Vec F) (s : Rng F) :
  SpecularBRDF_sample ks n o s = (mirroredDirection n o, #1.0, s) /\
  SpecularBRDF_eval ks n o i =
  if (Vec.x i =? Vec.x (mirroredDirection n o))
     && (Vec.y i =? Vec.y (mirroredDirection n o))
     && (Vec.z i =? Vec.z (mirroredDirection n o))
  then Vec.scale ks (#1.0 / Vec.dot n i)
  else Vec.zero.
Proof.
  split; [reflexivity|].
  unfold SpecularBRDF_eval. now rewrite Vec_equal_components.
Qed.

Lemma receivedRadiance_S fuel (r : Ray F) depth flag s :
  receivedRadiance ord (S fuel) r depth flag s =
  let '(hit, t, id) := intersect r 0 in
  if hit then
    let obj := sphere_at id in
    let x := Vec.add (Ray.o r) (Vec.scale (Ray.d r) t) in
    let o := Vec.normalize (Vec.sub Vec.zero (Ray.d r)) in
    match reflectedRadiance ord fuel x o obj depth flag s with
    | Some (L, s') => Some (Vec.add (emittedRadiance obj) L, s')
    | None => None
    end
  else Some (Vec.zero, s).
Proof.
  simpl. destruct (intersect r 0) as [[hit t] id].
  destruct hit; reflexivity.
Qed.

Lemma indirectedRadiance_S fuel (x o : Vec F) obj depth flag s :
  indirectedRadiance ord (S fuel) x o obj depth flag s =
  let p := if (depth <=? 5)%Z then #1.0 else #0.9 in
  let '(u, s1) := rng s in
  if u >? p then Some (Vec.zero, s1)
  else
    let n := facing_normal x o obj in
    let '(i, pdf, s2) := sample (Sphere.brdf obj) n o s1 in
    match receivedRadiance ord fuel (Ray.mk x i) (depth + 1) flag s2 with
    | Some (L, s3) =>
        Some (Vec.scale
                (Vec.scale (Vec.mult L (eval (Sphere.brdf obj) n o i)) (Vec.dot n i))
                (#1 / (pdf * p)), s3)
    | None => None
    end.
Proof.
  simpl. unfold then_, lift, rng; simpl.
  destruct (ltb _ (s 0%nat)); [reflexivity|].
  destruct (sample _ _ _ _) as [[i pdf] s2]; reflexivity.
Qed.

Lemma reflectedRadiance_S fuel (x o : Vec F) obj depth flag s :
  reflectedRadiance ord (S fuel) x o obj depth flag s =
  match ord with
  | DirectFirst =>
      let '(a, s1) := directedRadiance x o obj flag s in
      match indirectedRadiance ord fuel x o obj depth flag s1 with
      | Some (b, s2) => Some (Vec.add a b, s2)
      | None => None
      end
  | IndirectFirst =>
      match indirectedRadiance ord fuel x o obj depth flag s with
      | Some (b, s1) =>
          let '(a, s2) := directedRadiance x o obj flag s1 in
          Some (Vec.add a b, s2)
      | None => None
      end
  end.
Proof.
  simpl. unfold then_, lift, done. destruct ord.
  - destruct (directedRadiance x o obj flag s) as [a s1].
    destruct (indirectedRadiance _ _ _ _ _ _ _ _) as [[b s2]|]; reflexivity.
  - destruct (indirectedRadiance _ _ _ _ _ _ _ _) as [[b s1]|]; [|reflexivity].
    destruct (directedRadiance x o obj flag s1) as [a s2]. reflexivity.
Qed.

(** The flag is passed along and never read. *)
Lemma flag_unread fuel :
  (forall (r : Ray F) depth s,
      receivedRadiance ord fuel r depth true s =
      receivedRadiance ord fuel r depth false s) /\
  (forall (x o : Vec F) obj depth s,
      reflectedRadiance ord fuel x o obj depth true s =
      reflectedRadiance ord fuel x o obj depth false s) /\
  (forall (x o : Vec F) obj depth s,
      indirectedRadiance ord fuel x o obj depth true s =
      indirectedRadiance ord fuel x o obj depth false s).
Proof.
  induction fuel as [|fuel (IHrecv & IHrefl & IHind)].
  - repeat split; reflexivity.
  - repeat split; intros.
    + rewrite !receivedRadiance_S.
      destruct (intersect r 0) as [[hit t] id].
      destruct hit; [|reflexivity]. cbv zeta. now rewrite IHrefl.
    + simpl. unfold then_, lift, directedRadiance.
      destruct ord.
      * destruct (bind _ _ s) as [a s1]. now rewrite IHind.
      * rewrite IHind. reflexivity.
    + rewrite !indirectedRadiance_S. cbv zeta.
      destruct (rng s) as [u s1]. destruct (ltb _ u); [reflexivity|].
      destruct (sample _ _ _ _) as [[i pdf] s2]. now rewrite IHrecv.
Qed.
End Shape.

(** ** Exact arithmetic: literals and comparisons *)

Lemma Q2R_reduced (q : Q) :
  Q2R q = (IZR (Qnum (Qred q)) / IZR (Zpos (Qden (Qred q))))%R.
Proof.
  rewrite <- (Qeq_eqR _ _ (Qred_correct q)). reflexivity.
Qed.

(** Turns every literal of the goal into a quotient of two integers. *)
Ltac literals :=
  repeat match goal with
    | |- context [Q2R ?q] =>
        let n := eval vm_compute in (Qnum (Qred q)) in
        let d := eval vm_compute in (Zpos (Qden (Qred q))) in
        replace (Q2R q) with (IZR n / IZR d)%R
          by (rewrite (Q2R_reduced q); reflexivity)
    end.

Ltac literals_in H :=
  repeat match type of H with
    | context [Q2R ?q] =>
        let n := eval vm_compute in (Qnum (Qred q)) in
        let d := eval vm_compute in (Zpos (Qden (Qred q))) in
        replace (Q2R q) with (IZR n / IZR d)%R in H
          by (rewrite (Q2R_reduced q); reflexivity)
    end.

(** Exposes the real operations behind the interface. *)
Ltac arith :=
  cbn [lit of_int fadd fsub fmul fdiv fsqrt fcos fsin fabs fpow ltb eqb to_int
       R_Arith] in *.

Lemma Rltb_true a b : Rltb a b = true <-> (a < b)%R.
Proof. unfold Rltb. destruct (Rlt_dec a b); split; intros; try easy. Qed.

Lemma Rltb_false a b : Rltb a b = false <-> (b <= a)%R.
Proof.
  unfold Rltb. destruct (Rlt_dec a b); split; intros; try easy; lra.
Qed.

Lemma Reqb_true a b : Reqb a b = true <-> a = b.
Proof. unfold Reqb. destruct (Req_dec_T a b); split; intros; easy. Qed.

Lemma Reqb_false a b : Reqb a b = false <-> a <> b.
Proof. unfold Reqb. destruct (Req_dec_T a b); split; intros; easy. Qed.

(** ** Exact arithmetic: intersection *)

Section Intersection.
Local Open Scope R_scope.

(** What [Sphere::intersect] computes, in the names of the source. *)
Lemma Sphere_intersect_cases (s : Sphere R) (r : Ray R) :
  let op := Vec.sub (Sphere.p s) (Ray.o r) in
  let b := Vec.dot op (Ray.d r) in
  let det := b * b - Vec.dot op op + Sphere.rad s * Sphere.rad s in
  (det < 0 /\ Sphere.intersect s r = 0) \/
  (0 <= det /\ 1e-4 < b - sqrt det /\ Sphere.intersect s r = b - sqrt det) \/
  (0 <= det /\ b - sqrt det <= 1e-4 /\ 1e-4 < b + sqrt det /\
   Sphere.intersect s r = b + sqrt det) \/
  (0 <= det /\ b + sqrt det <= 1e-4 /\ Sphere.intersect s r = 0).
Proof.
  intros op b det. unfold Sphere.intersect. arith.
  fold op. fold b. fold det.
  destruct (Rltb det (Q2R 0)) eqn:Hdet.
  - apply Rltb_true in Hdet. literals_in Hdet. left. split; [lra|]. literals. lra.
  - apply Rltb_false in Hdet. literals_in Hdet. right.
    assert (0 <= sqrt det) by apply sqrt_pos.
    destruct (Rltb (Q2R 1e-4) (b - sqrt det)) eqn:H1.
    + apply Rltb_true in H1. literals_in H1. left. repeat split; lra.
    + apply Rltb_false in H1. literals_in H1. right.
      destruct (Rltb (Q2R 1e-4) (b + sqrt det)) eqn:H2.
      * apply Rltb_true in H2. literals_in H2. left. repeat split; lra.
      * apply Rltb_false in H2. literals_in H2. right.
        repeat split; lra.
Qed.

(** For a direction of unit length the quadratic is [(t - b)^2 - det]. *)
Lemma quadratic_unit (s : Sphere R) (r : Ray R) (t : R) :
  unit_length (Ray.d r) ->
  let op := Vec.sub (Sphere.p s) (Ray.o r) in
  let b := Vec.dot op (Ray.d r) in
  let det := b * b - Vec.dot op op + Sphere.rad s * Sphere.rad s in
  quadratic s r t = (t - b) * (t - b) - det.
Proof.
  unfold unit_length, quadratic. intros ->. cbv zeta.
  unfold Vec.dot, Vec.sub. cbn [Vec.x Vec.y Vec.z]. arith. ring.
Qed.

Lemma roots_of_square (u sd : R) :
  0 <= sd -> u * u - sd * sd = 0 -> u = sd \/ u = - sd.
Proof.
  intros Hsd Hu.
  assert (Hprod : (u - sd) * (u + sd) = 0) by (ring_simplify; lra).
  apply Rmult_integral in Hprod. destruct Hprod; [left | right]; lra.
Qed.

Lemma Sphere_intersect_nearest_root (s : Sphere R) (r : Ray R) :
  unit_length (Ray.d r) -> nearest_root s r (Sphere.intersect s r).
Proof.
  intros Hunit.
  pose proof (Sphere_intersect_cases s r) as Hcases.
  pose proof (fun t => @quadratic_unit s r t Hunit) as Hquad.
  cbv zeta in Hcases, Hquad.
  set (b := Vec.dot (Vec.sub (Sphere.p s) (Ray.o r)) (Ray.d r)) in *.
  set (det := b * b - _ + _) in *.
  unfold nearest_root, smallest_root_above, no_root_above.
  assert (Hroots : 0 <= det -> forall t, quadratic s r t = 0 ->
                                         t = b + sqrt det \/ t = b - sqrt det).
  { intros Hdet t Ht. rewrite Hquad in Ht.
    rewrite <- (sqrt_sqrt det Hdet) in Ht at 1.
    destruct (@roots_of_square (t - b) (sqrt det) (sqrt_pos det) Ht); [left | right]; lra. }
  assert (Hsd : 0 <= sqrt det) by apply sqrt_pos.
  destruct Hcases as [[Hdet ->] | [(Hdet & H1 & ->) | [(Hdet & H1 & H2 & ->) | (Hdet & H2 & ->)]]].
  - right. split; [|reflexivity]. intros t Ht _. rewrite Hquad in Ht.
    pose proof (Rle_0_sqr (t - b)) as Hsq. unfold Rsqr in Hsq. lra.
  - left. split; [|split; [exact H1|]].
    + rewrite Hquad. replace (b - sqrt det - b) with (- sqrt det) by ring.
      rewrite Rmult_opp_opp, (sqrt_sqrt det Hdet). ring.
    + intros t' Ht' _. destruct (Hroots Hdet t' Ht'); lra.
  - left. split; [|split; [exact H2|]].
    + rewrite Hquad. replace (b + sqrt det - b) with (sqrt det) by ring.
      rewrite (sqrt_sqrt det Hdet). ring.
    + intros t' Ht' Hgt. destruct (Hroots Hdet t' Ht'); lra.
  - right. split; [|reflexivity]. intros t Ht Hgt.
    destruct (Hroots Hdet t Ht); lra.
Qed.

(** The per-sphere test returns 0 or a distance beyond [eps]. *)
Lemma Sphere_intersect_range (s : Sphere R) (r : Ray R) :
  Sphere.intersect s r = 0 \/ 1e-4 < Sphere.intersect s r.
Proof.
  pose proof (Sphere_intersect_cases s r) as Hcases. cbv zeta in Hcases.
  destruct Hcases as [[_ ->] | [(_ & H1 & ->) | [(_ & _ & H2 & ->) | (_ & _ & ->)]]];
    auto.
Qed.

(** The scan of [intersect]: after the spheres [i-1 .. 0] the running [t] is
    below every non-zero distance met and either unchanged or the distance of
    the sphere [id]. *)
Lemma intersect_loop_scan (r : Ray R) (i : nat) : forall t0 id0,
  let '(t, id) := intersect_loop i r t0 id0 in
  (forall j, (j < i)%nat -> distance_to r j <> 0 -> t <= distance_to r j) /\
  ((t = t0 /\ id = id0) \/
   (t < t0 /\ (id < i)%nat /\ t = distance_to r id /\ distance_to r id <> 0)).
Proof.
  induction i as [|i IH]; intros t0 id0.
  - simpl. split; [lia | left; auto].
  - cbn [intersect_loop]. fold (distance_to r i). arith.
    destruct (Reqb (distance_to r i) (Q2R 0)) eqn:Hz; cbn [negb andb].
    + apply Reqb_true in Hz. literals_in Hz.
      specialize (IH t0 id0). destruct (intersect_loop i r t0 id0) as [t id].
      destruct IH as [Hmin Hlast]. split.
      * intros j Hj Hdj. destruct (Nat.eq_dec j i) as [->|]; [lra|].
        apply Hmin; [lia | assumption].
      * destruct Hlast as [?|(? & ? & ? & ?)]; [left; assumption|].
        right. repeat split; auto.
    + apply Reqb_false in Hz. literals_in Hz.
      destruct (Rltb (distance_to r i) t0) eqn:Hlt.
      * apply Rltb_true in Hlt.
        specialize (IH (distance_to r i) i).
        destruct (intersect_loop i r (distance_to r i) i) as [t id].
        destruct IH as [Hmin Hlast]. split.
        -- intros j Hj Hdj. destruct (Nat.eq_dec j i) as [->|].
           ++ destruct Hlast as [[-> _]|(? & _)]; lra.
           ++ apply Hmin; [lia | assumption].
        -- right. destruct Hlast as [[-> ->]|(? & ? & ? & ?)].
           ++ repeat split; auto. lra.
           ++ repeat split; auto. lra.
      * apply Rltb_false in Hlt.
        specialize (IH t0 id0). destruct (intersect_loop i r t0 id0) as [t id].
        destruct IH as [Hmin Hlast]. split.
        -- intros j Hj Hdj. destruct (Nat.eq_dec j i) as [->|].
           ++ destruct Hlast as [[-> _]|(? & _)]; lra.
           ++ apply Hmin; [lia | assumption].
        -- destruct Hlast as [?|(? & ? & ? & ?)]; [left; assumption|].
           right. repeat split; auto.
Qed.

Lemma intersect_nearest_hit (r : Ray R) (id0 : nat) :
  nearest_hit r (intersect r id0).
Proof.
  unfold intersect. change (List.length spheres) with 8%nat.
  pose proof (intersect_loop_scan r 8 (lit 1e20) id0) as Hscan.
  destruct (intersect_loop 8 r (lit 1e20) id0) as [t id].
  destruct Hscan as [Hmin Hlast]. unfold nearest_hit. arith.
  assert (Hpos : forall j, distance_to r j <> 0 <-> 0 < distance_to r j).
  { intros j. unfold distance_to.
    destruct (Sphere_intersect_range (sphere_at j) r); split; intros; lra. }
  literals_in Hlast. literals. split.
  - rewrite Rltb_false. split.
    + intros Hge (i & Hi & Hd & Hlt).
      apply Hpos in Hd. specialize (Hmin i Hi Hd). lra.
    + intros Hnone. destruct Hlast as [[-> _]|(Hlt & Hid & Ht & Hd)]; [lra|].
      exfalso. apply Hnone. exists id. rewrite <- Ht.
      repeat split; [assumption| |lra]. rewrite Ht. now apply Hpos.
  - rewrite Rltb_true. intros Hlt.
    destruct Hlast as [[-> _]|(_ & Hid & Ht & Hd)]; [lra|].
    repeat split; try assumption.
    + rewrite Ht. now apply Hpos.
    + intros i Hi Hdi. apply Hmin; [assumption | now apply Hpos].
Qed.

(** A sphere that the ray leaves behind, from an origin that is not inside
    it, is missed. *)
Lemma Sphere_intersect_left_behind (s : Sphere R) (r : Ray R) :
  let op := Vec.sub (Sphere.p s) (Ray.o r) in
  Vec.dot op (Ray.d r) <= 0 ->
  Sphere.rad s * Sphere.rad s <= Vec.dot op op ->
  Sphere.intersect s r = 0.
Proof.
  intros op Hb Hout.
  pose proof (Sphere_intersect_cases s r) as Hcases. cbv zeta in Hcases.
  fold op in Hcases.
  set (b := Vec.dot op (Ray.d r)) in *.
  set (det := b * b - Vec.dot op op + Sphere.rad s * Sphere.rad s) in *.
  assert (Hsd : 0 <= det -> sqrt det <= - b).
  { intros Hdet.
    assert (Hle : sqrt det <= sqrt (- b * - b)).
    { apply sqrt_le_1_alt. unfold det. nra. }
    rewrite sqrt_square in Hle by lra. exact Hle. }
  pose proof (sqrt_pos det) as Hpos.
  destruct Hcases as [[_ ->] | [(Hdet & H1 & _) | [(Hdet & _ & H2 & _) | (_ & _ & ->)]]];
    try reflexivity; specialize (Hsd Hdet); lra.
Qed.

(** On [long_ray] the test on Ball 1 returns 16.5, which is not a root of
    the quadratic (its smallest root is 24.75). *)
Lemma long_ray_on_ball :
  Sphere.intersect (sphere_at 5) long_ray = 16.5 /\
  quadratic (sphere_at 5) long_ray 16.5 <> 0.
Proof.
  split.
  - pose proof (Sphere_intersect_cases (sphere_at 5) long_ray) as Hcases.
    cbv zeta in Hcases.
    assert (Hb : Vec.dot (Vec.sub (Sphere.p (sphere_at 5)) (Ray.o long_ray))
                         (Ray.d long_ray) = 132).
    { unfold Vec.dot, Vec.sub, sphere_at, long_ray; simpl; arith; literals; lra. }
    assert (Hop : Vec.dot (Vec.sub (Sphere.p (sphere_at 5)) (Ray.o long_ray))
                          (Vec.sub (Sphere.p (sphere_at 5)) (Ray.o long_ray)) = 4356).
    { unfold Vec.dot, Vec.sub, sphere_at, long_ray; simpl; arith; literals; lra. }
    assert (Hrad : Sphere.rad (sphere_at 5) = 16.5).
    { unfold sphere_at; simpl; arith; literals; lra. }
    rewrite Hb, Hop, Hrad in Hcases.
    replace (132 * 132 - 4356 + 16.5 * 16.5) with (115.5 * 115.5) in Hcases by lra.
    rewrite sqrt_square in Hcases by lra.
    destruct Hcases as [[? _] | [(_ & _ & ->) | [(_ & ? & _) | (_ & ? & _)]]]; lra.
  - unfold quadratic, Vec.dot, Vec.sub, sphere_at, long_ray; simpl; arith; literals.
    lra.
Qed.
End Intersection.

(** ** Exact arithmetic: vectors *)

Section Vectors.
Local Open Scope R_scope.

Lemma Vec_eq (a b : Vec R) :
  Vec.x a = Vec.x b -> Vec.y a = Vec.y b -> Vec.z a = Vec.z b -> a = b.
Proof. destruct a, b; simpl; intros; subst; reflexivity. Qed.

Lemma lit_1 : Q2R 1.0 = 1.
Proof. literals. lra. Qed.

Lemma lit_0 : Q2R 0 = 0.
Proof. literals. lra. Qed.

Lemma PI_pos : 0 < @PI R _.
Proof. unfold PI. arith. literals. lra. Qed.

(** A vector of unit length is its own normalisation. *)
Lemma normalize_unit (a : Vec R) : unit_length a -> Vec.normalize a = a.
Proof.
  unfold unit_length, Vec.normalize, Vec.dot, Vec.scale. arith. intros ->.
  rewrite lit_1, sqrt_1. apply Vec_eq; simpl; field.
Qed.

(** Normalising a vector that is not 0 gives unit length. *)
Lemma normalize_unit_length (a : Vec R) :
  0 < Vec.dot a a -> unit_length (Vec.normalize a).
Proof.
  unfold unit_length, Vec.normalize, Vec.dot, Vec.scale. arith.
  cbn [Vec.x Vec.y Vec.z]. rewrite lit_1.
  set (L := Vec.x a * Vec.x a + Vec.y a * Vec.y a + Vec.z a * Vec.z a).
  intros HL.
  assert (Hs : sqrt L * sqrt L = L) by (apply sqrt_sqrt; lra).
  assert (Hp : 0 < sqrt L) by (apply sqrt_lt_R0; assumption).
  transitivity (L * (1 / sqrt L * (1 / sqrt L))); [unfold L; ring|].
  rewrite <- Hs at 1. field. lra.
Qed.

Lemma dot_combination (u v w : Vec R) (x y z : R) :
  let a := Vec.add (Vec.add (Vec.scale u x) (Vec.scale v y)) (Vec.scale w z) in
  Vec.dot a a =
  x * x * Vec.dot u u + y * y * Vec.dot v v + z * z * Vec.dot w w
  + 2 * x * y * Vec.dot u v + 2 * x * z * Vec.dot u w + 2 * y * z * Vec.dot v w.
Proof.
  unfold Vec.dot, Vec.add, Vec.scale. cbn [Vec.x Vec.y Vec.z]. arith. ring.
Qed.

Lemma dot_combination_axis (u v w : Vec R) (x y z : R) :
  let a := Vec.add (Vec.add (Vec.scale u x) (Vec.scale v y)) (Vec.scale w z) in
  Vec.dot w a = x * Vec.dot u w + y * Vec.dot v w + z * Vec.dot w w.
Proof.
  unfold Vec.dot, Vec.add, Vec.scale. cbn [Vec.x Vec.y Vec.z]. arith. ring.
Qed.

(** [createLocalCoord] builds an orthonormal frame around a unit normal. *)
Lemma createLocalCoord_frame (n : Vec R) :
  unit_length n ->
  let '(u, v, w) := createLocalCoord n in
  w = n /\ Vec.dot u u = 1 /\ Vec.dot v v = 1 /\
  Vec.dot u v = 0 /\ Vec.dot u w = 0 /\ Vec.dot v w = 0.
Proof.
  intros Hn. unfold createLocalCoord.
  destruct n as [nx ny nz]. unfold unit_length, Vec.dot in Hn.
  cbn [Vec.x Vec.y Vec.z] in Hn. arith.
  set (a := if Rltb _ _ then _ else _).
  assert (Hlen : 0 < Vec.dot (Vec.cross a (Vec.mk nx ny nz))
                             (Vec.cross a (Vec.mk nx ny nz))).
  { unfold a. destruct (Rltb _ _) eqn:Hbig.
    - apply Rltb_true in Hbig. literals_in Hbig. cbn [Vec.x] in Hbig.
      unfold Vec.dot, Vec.cross. cbn [Vec.x Vec.y Vec.z]. arith. literals.
      assert (0 < nx * nx).
      { unfold Rabs in Hbig. destruct (Rcase_abs nx); nra. }
      nra.
    - apply Rltb_false in Hbig. literals_in Hbig. cbn [Vec.x] in Hbig.
      unfold Vec.dot, Vec.cross. cbn [Vec.x Vec.y Vec.z]. arith. literals.
      assert (nx * nx <= 1 / 100).
      { unfold Rabs in Hbig. destruct (Rcase_abs nx); nra. }
      nra. }
  assert (Horth : Vec.dot (Vec.cross a (Vec.mk nx ny nz)) (Vec.mk nx ny nz) = 0).
  { unfold Vec.dot, Vec.cross. cbn [Vec.x Vec.y Vec.z]. arith. ring. }
  pose proof (normalize_unit_length _ Hlen) as Hu. unfold unit_length in Hu.
  set (c := Vec.cross a (Vec.mk nx ny nz)) in *.
  assert (Huw : Vec.dot (Vec.normalize c) (Vec.mk nx ny nz) = 0).
  { unfold Vec.normalize. set (k := (_ / _)%fl).
    transitivity (k * Vec.dot c (Vec.mk nx ny nz)).
    - unfold Vec.dot, Vec.scale. cbn [Vec.x Vec.y Vec.z]. arith. ring.
    - rewrite Horth. ring. }
  set (u := Vec.normalize c) in *.
  split; [reflexivity|]. split; [exact Hu|].
  destruct u as [ux uy uz].
  unfold Vec.dot, Vec.cross in *. cbn [Vec.x Vec.y Vec.z] in *. arith.
  split; [|split; [ring | split; [exact Huw | ring]]].
  transitivity ((nx * nx + ny * ny + nz * nz) * (ux * ux + uy * uy + uz * uz)
                - (ux * nx + uy * ny + uz * nz) * (ux * nx + uy * ny + uz * nz)).
  - ring.
  - rewrite Hn, Hu, Huw. ring.
Qed.

Lemma Vec_zero_R : @Vec.zero R _ = Vec.mk 0 0 0.
Proof. unfold Vec.zero. arith. now rewrite lit_0. Qed.

(** [a * c * (1/q)] is [a * (c/q)], for every component. *)
Lemma scale_twice (L e : Vec R) (c q : R) :
  Vec.scale (Vec.scale (Vec.mult L e) c) (1 / q) =
  Vec.mult L (Vec.scale e (c / q)).
Proof.
  unfold Vec.scale, Vec.mult. cbn [Vec.x Vec.y Vec.z]. arith.
  apply Vec_eq; cbn [Vec.x Vec.y Vec.z]; unfold Rdiv; ring.
Qed.

Lemma scale_thrice (L e : Vec R) (c1 c2 q : R) :
  Vec.scale (Vec.scale (Vec.scale (Vec.mult L e) c1) c2) (1 / q) =
  Vec.scale (Vec.mult L e) (c1 * c2 / q).
Proof.
  unfold Vec.scale, Vec.mult. cbn [Vec.x Vec.y Vec.z]. arith.
  apply Vec_eq; cbn [Vec.x Vec.y Vec.z]; unfold Rdiv; ring.
Qed.

Lemma Rltb_dec (a b : R) : Rltb a b = if Rlt_dec a b then true else false.
Proof. reflexivity. Qed.
End Vectors.

(** ** Exact arithmetic: the shadow ray *)

Section ShadowRay.
Local Open Scope R_scope.

(** On a miss [t] is left at 1e20. *)
Lemma intersect_miss (r : Ray R) (id0 : nat) (t : R) (id : nat) :
  intersect r id0 = (false, t, id) -> t = 1e20.
Proof.
  unfold intersect. change (List.length spheres) with 8%nat.
  pose proof (intersect_loop_scan r 8 (lit 1e20) id0) as Hscan.
  destruct (intersect_loop 8 r (lit 1e20) id0) as [t' id'].
  destruct Hscan as [_ Hlast]. arith. intros [= Hlt <- <-].
  apply Rltb_false in Hlt. literals_in Hlt. literals_in Hlast.
  destruct Hlast as [[-> _]|(? & _)]; lra.
Qed.

(** The scalar core: with [b = D - a] and [det = a^2 + K] the test on the
    left wall reports a distance in [(0, 1e20)]. *)
Lemma left_wall_in_reach (D a K sd d : R) :
  0 <= D -> (D = 0 /\ a = 0) \/ (1e20 - D) * (1e20 - D) < 1e-4 ->
  8796919 <= K -> a * a + K <= 1e10 -> 0 <= sd -> sd * sd = a * a + K ->
  (a * a + K < 0 /\ d = 0) \/
  (0 <= a * a + K /\ 1e-4 < D - a - sd /\ d = D - a - sd) \/
  (0 <= a * a + K /\ D - a - sd <= 1e-4 /\ 1e-4 < D - a + sd /\
   d = D - a + sd) \/
  (0 <= a * a + K /\ D - a + sd <= 1e-4 /\ d = 0) ->
  0 < d < 1e20.
Proof.
  intros HD Hpass HK Hbound Hsd Hsq Hcases.
  assert (Hsd5 : sd <= 1e5) by nra.
  assert (Hsda : a <= sd /\ - a <= sd) by (split; nra).
  assert (Ha5 : -1e5 <= a <= 1e5) by (split; nra).
  assert (Hsd1 : 1 < sd) by nra.
  destruct Hcases as [[Hneg _] | [(_ & H1 & ->) | [(_ & H1 & H2 & ->) | (_ & H2 & _)]]].
  - nra.
  - split; [lra|]. destruct Hpass as [[-> ->] | Hpass]; [lra|].
    assert (HDup : D < 1e20 + 1) by nra.
    assert (Hgap : 2 < a + sd).
    { assert (Hk : (a + sd) * (sd - a) = K) by nra. nra. }
    lra.
  - split; [lra|]. lra.
  - destruct Hpass as [[-> ->] | Hpass]; [lra|].
    assert (HDlo : 1e20 - 1 < D) by nra. lra.
Qed.

(** A ray from [x] toward a point [x_l] well inside the left wall sphere
    meets that sphere before 1e20 when the point of the ray at 1e20 is
    within 0.01 of [x_l]. *)
Lemma shadow_ray_reaches_left_wall (x x_l : Vec R) :
  let w := Vec.sub x_l (Sphere.p (sphere_at 0)) in
  let i := Vec.normalize (Vec.sub x_l x) in
  let x_hit := Vec.add x (Vec.scale i 1e20) in
  Vec.dot w w <= 1e10 - 8796919 ->
  Vec.dot (Vec.sub x_hit x_l) (Vec.sub x_hit x_l) < 1e-4 ->
  0 < distance_to (Ray.mk x i) 0 < 1e20.
Proof.
  intros w i x_hit Hw Hpass.
  pose proof (Sphere_intersect_cases (sphere_at 0) (Ray.mk x i)) as Hcases.
  cbv zeta in Hcases. fold (distance_to (Ray.mk x i) 0) in Hcases.
  set (v := Vec.sub x_l x) in *.
  set (L := Vec.dot v v).
  set (D := sqrt L).
  set (k := 1 / D).
  set (a := Vec.dot w i).
  set (K := Sphere.rad (sphere_at 0) * Sphere.rad (sphere_at 0) - Vec.dot w w).
  assert (HL : 0 <= L).
  { unfold L, Vec.dot. arith. nra. }
  assert (HD : 0 <= D) by apply sqrt_pos.
  assert (HDD : D * D = L) by (apply sqrt_sqrt; exact HL).
  assert (Hi : i = Vec.scale v k).
  { unfold i, Vec.normalize. fold v. arith. rewrite lit_1.
    reflexivity. }
  assert (Hrad : Sphere.rad (sphere_at 0) = 1e5).
  { unfold sphere_at. simpl. arith. literals. lra. }
  assert (Hop : Vec.sub (Sphere.p (sphere_at 0)) x = Vec.sub v w).
  { unfold v, w, Vec.sub. cbn [Vec.x Vec.y Vec.z]. arith.
    apply Vec_eq; cbn [Vec.x Vec.y Vec.z]; ring. }
  cbn [Ray.o Ray.d] in Hcases. rewrite Hop in Hcases.
  assert (Hzero : L = 0 -> D = 0 /\ a = 0 /\ Vec.dot (Vec.sub v w) i = 0).
  { intros HL0. assert (D = 0) by (unfold D; rewrite HL0; apply sqrt_0).
    assert (Hk0 : k = 0) by (unfold k; rewrite H; unfold Rdiv; rewrite Rinv_0; ring).
    repeat split; [assumption| |].
    - unfold a. rewrite Hi, Hk0. unfold Vec.dot, Vec.scale.
      cbn [Vec.x Vec.y Vec.z]. arith. ring.
    - rewrite Hi, Hk0. unfold Vec.dot, Vec.scale.
      cbn [Vec.x Vec.y Vec.z]. arith. ring. }
  assert (Hpos : L <> 0 -> k * D = 1 /\ Vec.dot (Vec.sub v w) i = D - a /\
                 a * a <= Vec.dot w w /\
                 Vec.dot (Vec.sub x_hit x_l) (Vec.sub x_hit x_l)
                 = (1e20 - D) * (1e20 - D)).
  { intros HL0. assert (HDpos : 0 < D) by (apply sqrt_lt_R0; lra).
    assert (HkD : k * D = 1) by (unfold k; field; lra).
    assert (HkL : k * L = D) by (rewrite <- HDD; unfold k; field; lra).
    split; [exact HkD|]. split; [|split].
    - unfold a. rewrite <- HkL. rewrite Hi. unfold L.
      unfold Vec.dot, Vec.scale, Vec.sub. cbn [Vec.x Vec.y Vec.z]. arith. ring.
    - assert (Hkk : k * k * L = 1) by (rewrite <- HDD; nra).
      unfold a. rewrite Hi.
      destruct v as [v1 v2 v3], w as [w1 w2 w3].
      unfold L, Vec.dot, Vec.scale in *. cbn [Vec.x Vec.y Vec.z] in *. arith.
      assert (Hcs : (w1 * v1 + w2 * v2 + w3 * v3) * (w1 * v1 + w2 * v2 + w3 * v3)
                    <= (w1 * w1 + w2 * w2 + w3 * w3) * (v1 * v1 + v2 * v2 + v3 * v3)).
      { pose proof (Rle_0_sqr (w1 * v2 - w2 * v1)) as Hs1.
        pose proof (Rle_0_sqr (w1 * v3 - w3 * v1)) as Hs2.
        pose proof (Rle_0_sqr (w2 * v3 - w3 * v2)) as Hs3.
        unfold Rsqr in Hs1, Hs2, Hs3. lra. }
      replace ((w1 * (v1 * k) + w2 * (v2 * k) + w3 * (v3 * k)) *
               (w1 * (v1 * k) + w2 * (v2 * k) + w3 * (v3 * k)))
        with (k * k * ((w1 * v1 + w2 * v2 + w3 * v3) * (w1 * v1 + w2 * v2 + w3 * v3)))
        by ring.
      assert (0 <= k * k) by nra.
      replace (w1 * w1 + w2 * w2 + w3 * w3)
        with (k * k * ((w1 * w1 + w2 * w2 + w3 * w3) * (v1 * v1 + v2 * v2 + v3 * v3))).
      + apply Rmult_le_compat_l; assumption.
      + transitivity ((k * k * (v1 * v1 + v2 * v2 + v3 * v3)) * (w1 * w1 + w2 * w2 + w3 * w3)); [ring|].
        rewrite Hkk. ring.
    - assert (Hxh : Vec.sub x_hit x_l = Vec.scale v (1e20 * k - 1)).
      { unfold x_hit. rewrite Hi. unfold v, Vec.sub, Vec.add, Vec.scale.
        cbn [Vec.x Vec.y Vec.z]. arith.
        apply Vec_eq; cbn [Vec.x Vec.y Vec.z]; ring. }
      rewrite Hxh.
      transitivity ((1e20 * k - 1) * (1e20 * k - 1) * L).
      + unfold L, Vec.dot, Vec.scale. cbn [Vec.x Vec.y Vec.z]. arith. ring.
      + rewrite <- HDD.
        replace (1e20 - D) with ((1e20 * k - 1) * D) by (unfold k; field; lra).
        ring. }
  apply (left_wall_in_reach D a K (sqrt (a * a + K))).
  - exact HD.
  - destruct (Req_dec_T L 0) as [HL0|HL0].
    + left. destruct (Hzero HL0) as (? & ? & _). split; assumption.
    + right. destruct (Hpos HL0) as (_ & _ & _ & <-). exact Hpass.
  - unfold K. rewrite Hrad. lra.
  - destruct (Req_dec_T L 0) as [HL0|HL0].
    + destruct (Hzero HL0) as (_ & -> & _). unfold K. rewrite Hrad.
      assert (0 <= Vec.dot w w) by (unfold Vec.dot; arith; nra). lra.
    + destruct (Hpos HL0) as (_ & _ & Hcs & _). unfold K. rewrite Hrad. lra.
  - apply sqrt_pos.
  - apply sqrt_sqrt. unfold K. rewrite Hrad. nra.
  - assert (Hb : Vec.dot (Vec.sub v w) i = D - a).
    { destruct (Req_dec_T L 0) as [HL0|HL0].
      - destruct (Hzero HL0) as (-> & -> & ->). ring.
      - now destruct (Hpos HL0) as (_ & -> & _). }
    assert (Hdet : (D - a) * (D - a) - Vec.dot (Vec.sub v w) (Vec.sub v w)
                   + Sphere.rad (sphere_at 0) * Sphere.rad (sphere_at 0)
                   = a * a + K).
    { unfold K.
      assert (Hvw : Vec.dot v w = D * a).
      { destruct (Req_dec_T L 0) as [HL0|HL0].
        - destruct (Hzero HL0) as (-> & _ & _).
          assert (Hv0 : Vec.x v = 0 /\ Vec.y v = 0 /\ Vec.z v = 0).
          { unfold L, Vec.dot in HL0. arith. repeat split; nra. }
          destruct Hv0 as (Hv1 & Hv2 & Hv3).
          unfold Vec.dot. arith. rewrite Hv1, Hv2, Hv3. ring.
        - destruct (Hpos HL0) as (HkD & _).
          unfold a. rewrite Hi.
          transitivity (k * D * Vec.dot v w); [rewrite HkD; ring|].
          unfold Vec.dot, Vec.scale. cbn [Vec.x Vec.y Vec.z]. arith. ring. }
      transitivity ((D - a) * (D - a) - (L - 2 * Vec.dot v w + Vec.dot w w)
                    + Sphere.rad (sphere_at 0) * Sphere.rad (sphere_at 0)).
      - unfold L, Vec.dot, Vec.sub. cbn [Vec.x Vec.y Vec.z]. arith. ring.
      - rewrite Hvw, <- HDD. ring. }
    rewrite Hb, Hdet in Hcases. exact Hcases.
Qed.

(** A point sampled on the light with [u1] in [[0,1]] is well inside the
    left wall sphere. *)
Lemma luminaire_point_inside (s : Rng R) :
  0 <= s 0%nat <= 1 ->
  let '(x_l, _, _, _) := luminaireSample (sphere_at 7) s in
  let w := Vec.sub x_l (Sphere.p (sphere_at 0)) in
  Vec.dot w w <= 1e10 - 8796919.
Proof.
  intros Hu. unfold luminaireSample, bind, ret, rng. cbv zeta.
  set (z := (#2 * s 0%nat - #1)%fl).
  set (phi := (#2 * PI * s 1%nat)%fl).
  set (rho := fsqrt (#1 - z * z)%fl).
  assert (Hz : -1 <= z <= 1).
  { unfold z. arith. literals. lra. }
  assert (Hrho : rho * rho = 1 - z * z).
  { unfold rho. arith. replace (Q2R 1) with 1 by (literals; lra).
    apply sqrt_sqrt. nra. }
  assert (Htrig : cos phi * cos phi + sin phi * sin phi = 1).
  { pose proof (sin2_cos2 phi) as Hsc. unfold Rsqr in Hsc. lra. }
  assert (Hn : (rho * cos phi) * (rho * cos phi) + (rho * sin phi) * (rho * sin phi)
               + z * z = 1).
  { transitivity (rho * rho * (cos phi * cos phi + sin phi * sin phi) + z * z);
      [ring|]. rewrite Htrig, Hrho. ring. }
  unfold sphere_at, Vec.dot, Vec.sub, Vec.add, Vec.scale. simpl. arith.
  set (n1 := rho * cos phi) in *. set (n2 := rho * sin phi) in *.
  literals.
  assert (-1 <= n1 <= 1) by (split; nra).
  assert (-1 <= n2 <= 1) by (split; nra).
  nra.
Qed.

(** When the test of the direct term passes, the shadow ray has hit a
    sphere: the point tested is the nearest hit point. *)
Lemma shadow_ray_pass_is_hit (x : Vec R) (s : Rng R) :
  0 <= s 0%nat <= 1 ->
  let '(x_l, _, _, _) := luminaireSample (sphere_at 7) s in
  let i := Vec.normalize (Vec.sub x_l x) in
  let '(hit, t, _) := intersect (Ray.mk x i) 0 in
  let x_hit := Vec.add x (Vec.scale i t) in
  Vec.dot (Vec.sub x_hit x_l) (Vec.sub x_hit x_l) < 1e-4 -> hit = true.
Proof.
  intros Hu. pose proof (luminaire_point_inside s Hu) as Hin.
  destruct (luminaireSample (sphere_at 7) s) as [[[x_l n_l] pdf_l] s'].
  cbv zeta in *.
  pose proof (intersect_nearest_hit (Ray.mk x (Vec.normalize (Vec.sub x_l x))) 0)
    as Hnh.
  destruct (intersect _ 0) as [[hit t] id] eqn:Hint.
  destruct hit; [reflexivity|]. intros Hpass. exfalso.
  apply intersect_miss in Hint. subst t.
  destruct Hnh as [Hmiss _]. apply Hmiss; [reflexivity|].
  exists 0%nat. split; [lia|].
  now apply shadow_ray_reaches_left_wall.
Qed.

(** The direct term over the reals, with the division written out. *)
Lemma directedRadiance_R (x o : Vec R) (obj : Sphere R) (flag : bool)
  (s : Rng R) :
  let '(x_l, n_l, pdf_l, s') := luminaireSample (sphere_at 7) s in
  let Le := Sphere.e (sphere_at 7) in
  let n := facing_normal x o obj in
  let i := Vec.normalize (Vec.sub x_l x) in
  let d2 := Vec.dot (Vec.sub x_l x) (Vec.sub x_l x) in
  let '(_, t, _) := intersect (Ray.mk x i) 0 in
  let x_hit := Vec.add x (Vec.scale i t) in
  directedRadiance x o obj flag s =
  if Rlt_dec (Vec.dot (Vec.sub x_hit x_l) (Vec.sub x_hit x_l)) 1e-4
  then (Vec.scale (Vec.mult Le (eval (Sphere.brdf obj) n o i))
          (Vec.dot n i * Vec.dot n_l (Vec.sub (Vec.mk 0 0 0) i) / (d2 * pdf_l)),
        s')
  else (Vec.mk 0 0 0, s').
Proof.
  unfold directedRadiance, bind, ret, emittedRadiance.
  destruct (luminaireSample (sphere_at 7) s) as [[[x_l n_l] pdf_l] s'].
  cbv zeta.
  destruct (intersect _ 0) as [[hit t] id].
  arith. rewrite Rltb_dec.
  replace (Q2R 0.0001) with 1e-4 by (literals; lra).
  destruct (Rlt_dec _ _).
  - replace (Q2R 1) with 1 by (literals; lra).
    now rewrite scale_thrice, Vec_zero_R.
  - now rewrite Vec_zero_R.
Qed.
End ShadowRay.

(** ** Pixel encoding *)

Section PixelEncoding.
Local Open Scope R_scope.

Lemma clamp_cases (x : R) :
  clamp x = if Rlt_dec x 0 then 0 else if Rlt_dec 1 x then 1 else x.
Proof.
  unfold clamp. arith. rewrite !Rltb_dec.
  replace (Q2R 0) with 0 by (literals; lra).
  replace (Q2R 1) with 1 by (literals; lra).
  destruct (Rlt_dec x 0); [reflexivity|]. now destruct (Rlt_dec 1 x).
Qed.

Lemma clamp_range (x : R) : 0 <= clamp x <= 1.
Proof.
  rewrite clamp_cases.
  destruct (Rlt_dec x 0); [lra|]. destruct (Rlt_dec 1 x); lra.
Qed.

(** A base in [[0,1]] raised to a positive exponent stays in [[0,1]]. *)
Lemma Rpow_range (c b : R) : 0 <= c <= 1 -> 0 < b -> 0 <= Rpow c b <= 1.
Proof.
  intros Hc Hb. unfold Rpow.
  destruct (Req_dec_T c 0) as [->|Hc0].
  - destruct (Req_dec_T b 0); lra.
  - unfold Rpower. split; [left; apply exp_pos|].
    rewrite <- exp_0. destruct (Rle_lt_or_eq_dec c 1 (proj2 Hc)) as [Hlt| ->].
    + left. apply exp_increasing.
      assert (ln c < 0) by (rewrite <- ln_1; apply ln_increasing; lra).
      nra.
    + rewrite ln_1. right. f_equal. ring.
Qed.

Lemma Rtrunc_floor (a : R) :
  0 <= a -> IZR (Rtrunc a) <= a < IZR (Rtrunc a) + 1.
Proof.
  intros Ha. unfold Rtrunc. destruct (Rle_dec 0 a); [|contradiction].
  destruct (base_Int_part a). lra.
Qed.

(** An integer within 1/2 of [y] is at least as near to [y] as any other. *)
Lemma nearest_of_half (n : Z) (y : R) :
  y - 1 / 2 < IZR n <= y + 1 / 2 ->
  forall m : Z, Rabs (IZR n - y) <= Rabs (IZR m - y).
Proof.
  intros Hn m.
  destruct (Z.eq_dec m n) as [->|Hmn]; [lra|].
  assert (Hfar : IZR m <= IZR n - 1 \/ IZR n + 1 <= IZR m).
  { destruct (Z_lt_ge_dec m n) as [Hlt|Hge].
    - left. rewrite <- minus_IZR. apply IZR_le. lia.
    - right. rewrite <- plus_IZR. apply IZR_le. lia. }
  unfold Rabs. destruct (Rcase_abs (IZR n - y)), (Rcase_abs (IZR m - y)); lra.
Qed.

Lemma toInt_value (x : R) :
  let y := Rpow (clamp x) (1 / 2.2) * 255 in
  0 <= y <= 255 /\ y - 1 / 2 < IZR (toInt x) <= y + 1 / 2.
Proof.
  intros y.
  assert (Hy : 0 <= y <= 255).
  { unfold y. pose proof (Rpow_range (clamp x) (1 / 2.2) (clamp_range x)) as Hp.
    assert (0 < 1 / 2.2) by lra. specialize (Hp H). lra. }
  split; [exact Hy|].
  unfold toInt. arith.
  replace (Q2R 1.0 / Q2R 2.2) with (1 / 2.2) by (literals; lra).
  replace (Q2R 255) with 255 by (literals; lra).
  replace (Q2R 0.5) with (1 / 2) by (literals; lra).
  fold y. pose proof (Rtrunc_floor (y + 1 / 2)) as Hfl.
  assert (Hpos : 0 <= y + 1 / 2) by lra. specialize (Hfl Hpos). lra.
Qed.

Lemma toInt_range (x : R) : (0 <= toInt x <= 255)%Z.
Proof.
  destruct (toInt_value x) as [Hy Hn]. cbv zeta in Hy, Hn. split.
  - assert (Hlt : IZR (-1) < IZR (toInt x)) by lra.
    apply lt_IZR in Hlt. lia.
  - assert (Hlt : IZR (toInt x) < IZR 256) by lra.
    apply lt_IZR in Hlt. lia.
Qed.

Lemma pixel_ints_range (c : list (Vec R)) :
  Forall (fun n => (0 <= n <= 255)%Z) (flat_map pixel_ints c).
Proof.
  induction c as [|v c IH]; simpl; [constructor|].
  repeat (constructor; [apply toInt_range|]). exact IH.
Qed.
End PixelEncoding.

(** ** The main function *)

Section MainFunction.
Context {F : Type} `{Arith F}.
Variable ord : Order.

(** A loop whose body always finishes without drawing does the same. *)
Lemma for_finishes {A} (body : Z -> A -> Run F A) (s : Rng F) :
  (forall i a, exists a', body i a s = Some (a', s)) ->
  forall n lo a, exists a', for_ n lo body a s = Some (a', s).
Proof.
  intros Hbody n. induction n as [|n IH]; intros lo a.
  - exists a. reflexivity.
  - cbn [for_]. unfold then_. destruct (Hbody lo a) as [a' ->]. apply IH.
Qed.

(** Without samples to take the rendering finishes, whatever the fuel. *)
Lemma render_no_samples fuel (w h samps : Z) (s : Rng F) :
  (samps <= 0)%Z -> exists c, render ord fuel w h samps s = Some (c, s).
Proof.
  intros Hsamps. unfold render.
  replace (Z.to_nat samps) with 0%nat by lia.
  apply for_finishes. intros y c0.
  apply for_finishes. intros x c1.
  apply for_finishes. intros sy c2.
  apply for_finishes. intros sx c3.
  cbn [for_]. unfold then_, done. eexists. reflexivity.
Qed.

(** [main] has one way out: status 0, after the header and the pixels are
    written. *)
Lemma main_outcome fuel (argv : list string) (s s' : Rng F) (out : Outcome) :
  main ord fuel argv s = Some (out, s') ->
  exit_status out = 0%Z /\
  exists c, render ord fuel 480 360 (main_samps argv) s = Some (c, s') /\
            image_ppm out = (ppm_header 480 360 ++ ppm_body c)%string.
Proof.
  unfold main, then_, done.
  destruct (render ord fuel 480 360 (main_samps argv) s) as [[c s1]|];
    [|discriminate].
  intros [= <- <-]. split; [reflexivity|]. exists c. split; reflexivity.
Qed.

Lemma main_no_samples fuel (argv : list string) (s : Rng F) :
  (main_samps argv <= 0)%Z ->
  exists out, main ord fuel argv s = Some (out, s) /\ exit_status out = 0%Z.
Proof.
  intros Hsamps. unfold main, then_, done.
  destruct (render_no_samples fuel 480 360 (main_samps argv) s Hsamps) as [c ->].
  eexists. split; reflexivity.
Qed.
End MainFunction.


(** Unfolds the vector operations down to the real operations. *)
Ltac components :=
  unfold Vec.dot, Vec.cross, Vec.add, Vec.sub, Vec.scale, Vec.mult;
  cbn [Vec.x Vec.y Vec.z]; arith.

(** ** The argument of the program *)

Section Numerals.
Local Open Scope Z_scope.

(** Reading the digits of a decimal numeral gives its value. *)
Lemma atoi_digits_acc (d : Decimal.uint) : forall acc : positive,
  atoi_digits (Zpos acc) (NilEmpty.string_of_uint d)
  = Zpos (Pos.of_uint_acc d acc).
Proof.
  induction d as [|d IH|d IH|d IH|d IH|d IH|d IH|d IH|d IH|d IH|d IH];
    intros acc; [reflexivity|..];
    cbn [NilEmpty.string_of_uint atoi_digits Pos.of_uint_acc];
    match goal with
    | |- context [digit_of ?c] =>
        let v := eval vm_compute in (digit_of c) in
        change (digit_of c) with v
    end;
    cbv iota beta; rewrite <- IH; f_equal; lia.
Qed.

Lemma atoi_digits_uint (d : Decimal.uint) :
  atoi_digits 0 (NilEmpty.string_of_uint d) = Z.of_N (Pos.of_uint d).
Proof.
  induction d as [|d IH|d IH|d IH|d IH|d IH|d IH|d IH|d IH|d IH|d IH];
    [reflexivity|..];
    cbn [NilEmpty.string_of_uint atoi_digits Pos.of_uint];
    match goal with
    | |- context [digit_of ?c] =>
        let v := eval vm_compute in (digit_of c) in
        change (digit_of c) with v
    end;
    cbv iota beta.
  1: exact IH.
  all: cbn [Z.mul Z.add Z.of_N]; apply atoi_digits_acc.
Qed.

(** A numeral starts with a digit: no space is skipped and no sign read. *)
Lemma strtol_digits (d : Decimal.uint) :
  d <> Decimal.Nil ->
  strtol (NilEmpty.string_of_uint d)
  = Z.max (- 2 ^ 63) (Z.min (2 ^ 63 - 1) (Z.of_N (Pos.of_uint d))).
Proof.
  intros Hd. rewrite <- atoi_digits_uint. unfold strtol.
  destruct d; [contradiction|..]; reflexivity.
Qed.

Lemma strtol_decimal (n : Z) :
  strtol (NilZero.string_of_int (Z.to_int n))
  = Z.max (- 2 ^ 63) (Z.min (2 ^ 63 - 1) n).
Proof.
  destruct n as [|p|p]; [reflexivity|..];
    cbn [Z.to_int NilZero.string_of_int];
    pose proof (DecimalPos.Unsigned.to_uint_nonnil p) as Hnil;
    pose proof (DecimalPos.Unsigned.of_to p) as Hval.
  - assert (Hs : NilZero.string_of_uint (Pos.to_uint p)
                 = NilEmpty.string_of_uint (Pos.to_uint p)).
    { destruct (Pos.to_uint p); [contradiction|..]; reflexivity. }
    rewrite Hs, (strtol_digits _ Hnil), Hval. reflexivity.
  - assert (Hs : NilZero.string_of_uint (Pos.to_uint p)
                 = NilEmpty.string_of_uint (Pos.to_uint p)).
    { destruct (Pos.to_uint p); [contradiction|..]; reflexivity. }
    rewrite Hs. unfold strtol.
    change (skip_spaces (String "-" (NilEmpty.string_of_uint (Pos.to_uint p))))
      with (String "-" (NilEmpty.string_of_uint (Pos.to_uint p))).
    cbv iota beta. rewrite atoi_digits_uint, Hval. reflexivity.
Qed.

(** [atoi] reads back the decimal numeral of every [int]. *)
Lemma atoi_decimal (n : Z) :
  - 2 ^ 31 <= n < 2 ^ 31 -> atoi (NilZero.string_of_int (Z.to_int n)) = n.
Proof.
  intros Hn. unfold atoi. rewrite strtol_decimal. unfold int_of_long.
  change (2 ^ 31) with 2147483648 in *.
  change (2 ^ 32) with 4294967296.
  change (2 ^ 63) with 9223372036854775808.
  rewrite Z.max_r, Z.min_r by lia.
  rewrite Z.mod_small by lia. lia.
Qed.

(** An argument that starts with a character above ['9'] (a letter, say)
    holds no number for [atoi]. *)
Lemma atoi_not_numeric (c : ascii) (rest : string) :
  (57 < nat_of_ascii c)%nat -> atoi (String c rest) = 0.
Proof.
  intros Hc.
  destruct c as [[|] [|] [|] [|] [|] [|] [|] [|]];
    first [reflexivity | exfalso; vm_compute in Hc; lia].
Qed.
End Numerals.

(** ** The image *)

Section Image.
Context {F : Type} `{Arith F}.
Variable ord : Order.

(** What holds before a loop and is kept by every finished turn of its body
    holds after the loop. *)
Lemma for_invariant {A} (P : A -> Prop) (body : Z -> A -> Run F A) :
  (forall i a s a' s', P a -> body i a s = Some (a', s') -> P a') ->
  forall n lo a s a' s', P a -> for_ n lo body a s = Some (a', s') -> P a'.
Proof.
  intros Hbody n. induction n as [|n IH]; intros lo a s a' s' Ha Hrun.
  - cbn [for_] in Hrun. unfold done in Hrun. now inversion Hrun; subst.
  - cbn [for_] in Hrun. unfold then_ in Hrun.
    destruct (body lo a s) as [[a1 s1]|] eqn:Hstep; [|discriminate].
    apply (IH _ _ _ _ _ (Hbody _ _ _ _ _ Ha Hstep) Hrun).
Qed.

Lemma store_length (c : list (Vec F)) : forall i v,
  List.length (store c i v) = List.length c.
Proof.
  induction c as [|a c IH]; intros [|i] v; simpl; auto.
Qed.

(** The four loops around the sample loop keep what every write of a pixel
    keeps. *)
Lemma render_invariant (P : list (Vec F) -> Prop) fuel (w h samps : Z)
  (s s' : Rng F) (c : list (Vec F)) :
  P (repeat Vec.zero (Z.to_nat (w * h))) ->
  (forall c i r, P c ->
     P (store c i
          (Vec.add (load c i)
             (Vec.scale (Vec.mk (clamp (Vec.x r)) (clamp (Vec.y r)) (clamp (Vec.z r)))
                (lit 0.25))))) ->
  render ord fuel w h samps s = Some (c, s') -> P c.
Proof.
  intros Hinit Hstore. unfold render.
  apply for_invariant; [|exact Hinit]. intros y c0 s0 c0' s0' Hc0.
  apply for_invariant; [|exact Hc0]. intros x c1 s1 c1' s1' Hc1.
  apply for_invariant; [|exact Hc1]. intros sy c2 s2 c2' s2' Hc2.
  apply for_invariant; [|exact Hc2]. intros sx c3 s3 c3' s3' Hc3.
  unfold then_, done.
  destruct (for_ _ _ _ _ s3) as [[r s4]|]; [|discriminate].
  intros [= <- <-]. now apply Hstore.
Qed.

Lemma render_length fuel (samps : Z) (s s' : Rng F) (c : list (Vec F)) :
  render ord fuel 480 360 samps s = Some (c, s') ->
  List.length c = Z.to_nat (480 * 360).
Proof.
  apply (render_invariant (fun c => List.length c = Z.to_nat (480 * 360))).
  - apply repeat_length.
  - intros c0 i r Hc0. rewrite store_length. exact Hc0.
Qed.

(** The header, spelled out. *)
Lemma ppm_header_text (body : string) :
  (ppm_header 480 360 ++ body)%string
  = ("P3" ++ String "010" "" ++ "480 360" ++ String "010" "" ++ "255"
     ++ String "010" "" ++ body)%string.
Proof. reflexivity. Qed.

(** The text written for the pixels [c], spelled out: the three channels of
    every pixel through [toInt], each in decimal and followed by a space. *)
Lemma ppm_text (c : list (Vec F)) :
  (ppm_header 480 360 ++ ppm_body c)%string
  = ("P3" ++ String "010" "" ++ "480 360" ++ String "010" "" ++ "255"
     ++ String "010" ""
     ++ String.concat ""
          (map (fun n => NilZero.string_of_int (Z.to_int n) ++ " ")
             (flat_map
                (fun v => [toInt (Vec.x v); toInt (Vec.y v); toInt (Vec.z v)])
                c)))%string.
Proof. reflexivity. Qed.

(** A run of [main] that ends has rendered with the sample count of the
    arguments, written the image of the 480 * 360 pixels and returned 0. *)
Lemma main_text fuel (argv : list string) (s s' : Rng F) (out : Outcome) :
  main ord fuel argv s = Some (out, s') ->
  exists c,
    render ord fuel 480 360 (main_samps argv) s = Some (c, s') /\
    Z.of_nat (List.length c) = 172800%Z /\
    out = {| exit_status := 0;
             image_ppm := (ppm_header 480 360 ++ ppm_body c)%string |}.
Proof.
  unfold main, then_, done.
  destruct (render ord fuel 480 360 (main_samps argv) s) as [[c s1]|] eqn:Hr;
    [|discriminate].
  intros [= <- <-]. exists c. split; [reflexivity|]. split; [|reflexivity].
  rewrite (render_length _ _ _ _ _ Hr). lia.
Qed.
End Image.

Section ImageExact.
Local Open Scope R_scope.

Lemma toInt_low (x : R) : x <= 0 -> toInt x = 0%Z.
Proof.
  intros Hx. destruct (toInt_value x) as [_ Hv]. cbv zeta in Hv.
  assert (Hc : clamp x = 0).
  { rewrite clamp_cases. destruct (Rlt_dec x 0); [reflexivity|].
    destruct (Rlt_dec 1 x); lra. }
  rewrite Hc in Hv.
  assert (Hp : Rpow 0 (1 / 2.2) = 0).
  { unfold Rpow. destruct (Req_dec_T 0 0); [|contradiction].
    destruct (Req_dec_T (1 / 2.2) 0); [lra | reflexivity]. }
  rewrite Hp in Hv.
  assert (H1 : IZR (-1) < IZR (toInt x)) by lra.
  assert (H2 : IZR (toInt x) < IZR 1) by lra.
  apply lt_IZR in H1, H2. lia.
Qed.

Lemma toInt_high (x : R) : 1 <= x -> toInt x = 255%Z.
Proof.
  intros Hx. destruct (toInt_value x) as [_ Hv]. cbv zeta in Hv.
  assert (Hc : clamp x = 1).
  { rewrite clamp_cases. destruct (Rlt_dec x 0); [lra|].
    destruct (Rlt_dec 1 x); lra. }
  rewrite Hc in Hv.
  assert (Hp : Rpow 1 (1 / 2.2) = 1).
  { unfold Rpow. destruct (Req_dec_T 1 0); [lra|].
    unfold Rpower. now rewrite ln_1, Rmult_0_r, exp_0. }
  rewrite Hp in Hv.
  assert (H1 : IZR 254 < IZR (toInt x)) by lra.
  assert (H2 : IZR (toInt x) < IZR 256) by lra.
  apply lt_IZR in H1, H2. lia.
Qed.

Lemma store_all (P : Vec R -> Prop) (c : list (Vec R)) : forall i v,
  Forall P c -> P v -> Forall P (store c i v).
Proof.
  induction c as [|a c IH]; intros [|i] v Hc Hv; simpl; auto;
    inversion Hc; subst; constructor; auto.
Qed.

Lemma load_all (P : Vec R -> Prop) (c : list (Vec R)) (i : nat) :
  Forall P c -> P Vec.zero -> P (load c i).
Proof.
  intros Hc Hz. unfold load. destruct (nth_in_or_default i c Vec.zero) as [Hin| ->].
  - rewrite Forall_forall in Hc. now apply Hc.
  - exact Hz.
Qed.

(** Without samples to take every pixel stays 0. *)
Lemma render_black (ord : Order) fuel (samps : Z) (s s' : Rng R)
  (c : list (Vec R)) :
  (samps <= 0)%Z ->
  render ord fuel 480 360 samps s = Some (c, s') ->
  c = repeat (Vec.mk 0 0 0) (Z.to_nat (480 * 360)).
Proof.
  intros Hsamps Hrender.
  pose proof (render_length ord fuel samps s s' c Hrender) as Hlen.
  assert (Hblack : Forall (eq (Vec.mk 0 0 0)) c).
  { revert Hrender. unfold render.
    replace (Z.to_nat samps) with 0%nat by lia.
    apply for_invariant.
    2:{ rewrite Vec_zero_R. clear. induction (Z.to_nat (480 * 360)); simpl;
          constructor; auto. }
    intros y c0 s0 c0' s0' Hc0.
    apply for_invariant; [|exact Hc0]. intros x c1 s1 c1' s1' Hc1.
    apply for_invariant; [|exact Hc1]. intros sy c2 s2 c2' s2' Hc2.
    apply for_invariant; [|exact Hc2]. intros sx c3 s3 c3' s3' Hc3.
    cbn [for_]. unfold then_, done. intros [= <- <-].
    apply store_all; [exact Hc3|].
    rewrite <- (load_all (eq (Vec.mk 0 0 0)) c3 _ Hc3 (eq_sym Vec_zero_R)).
    assert (Hcl : clamp 0 = 0).
    { rewrite clamp_cases. destruct (Rlt_dec 0 0); [lra|].
      destruct (Rlt_dec 1 0); [lra | reflexivity]. }
    components. rewrite ?lit_0, Hcl.
    apply Vec_eq; cbn [Vec.x Vec.y Vec.z]; ring. }
  rewrite (Forall_eq_repeat Hblack). rewrite Hlen. reflexivity.
Qed.

(** The text of black pixels. *)
Lemma ppm_body_black (n : nat) :
  ppm_body (repeat (Vec.mk 0 0 0) n)
  = String.concat ""%string (repeat "0 0 0 "%string n).
Proof.
  pose proof (toInt_low 0 (Rle_refl 0)) as Hz.
  unfold ppm_body. induction n as [|n IH]; [reflexivity|].
  cbn [repeat flat_map pixel_ints app Vec.x Vec.y Vec.z map].
  rewrite Hz. change (print_int 0) with "0"%string.
  destruct n as [|n].
  - reflexivity.
  - cbn [repeat flat_map pixel_ints app Vec.x Vec.y Vec.z map] in *.
    rewrite Hz in *. change (print_int 0) with "0"%string in *.
    cbn [String.concat] in *. rewrite IH. reflexivity.
Qed.

(** With a sample count that is not positive [main] draws nothing, writes a
    black image and returns 0, whatever the fuel. *)
Lemma main_black (ord : Order) fuel (argv : list string) (s : Rng R) :
  (main_samps argv <= 0)%Z ->
  main ord fuel argv s
  = Some ({| exit_status := 0;
             image_ppm :=
               ("P3" ++ String "010" "" ++ "480 360" ++ String "010" ""
                ++ "255" ++ String "010" ""
                ++ String.concat "" (repeat "0 0 0 " (Z.to_nat (480 * 360))))%string |},
          s).
Proof.
  intros Hsamps.
  destruct (main_no_samples ord fuel argv s Hsamps) as (out & Hrun & _).
  rewrite Hrun.
  destruct (main_text ord fuel argv s s out Hrun) as (c & Hrender & _ & ->).
  rewrite (render_black ord fuel (main_samps argv) s s c Hsamps Hrender).
  rewrite ppm_body_black, ppm_header_text. reflexivity.
Qed.
End ImageExact.

(** ** The variates a run draws *)

Section Draws.
Context {F : Type} `{Arith F}.
Variable ord : Order.

Lemma drawn_none (s : Rng F) : drawn 0 s s.
Proof. intros k. reflexivity. Qed.

Lemma drawn_then (a b : nat) (s1 s2 s3 : Rng F) :
  drawn a s1 s2 -> drawn b s2 s3 -> drawn (a + b) s1 s3.
Proof.
  intros H12 H23 k. rewrite H23, H12. f_equal. lia.
Qed.

(** The direct term draws the two variates of the light sample. *)
Lemma directedRadiance_draws (x o : Vec F) (obj : Sphere F) (flag : bool)
  (s : Rng F) :
  snd (directedRadiance x o obj flag s) = fun k => s (S (S k)).
Proof.
  unfold directedRadiance, luminaireSample, bind, ret, rng. cbv zeta.
  destruct (intersect _ 0) as [[hit t] id].
  destruct (ltb _ _); reflexivity.
Qed.

Lemma sample_draws (brdf : BRDF F) (n o : Vec F) (s : Rng F) :
  exists m, drawn m s (snd (sample brdf n o s)).
Proof.
  destruct brdf as [kd|ks]; cbn [sample].
  - exists 2%nat. unfold DiffuseBRDF_sample, bind, ret, rng. cbv zeta.
    destruct (createLocalCoord n) as [[u v] w]. intros k. reflexivity.
  - exists 0%nat. intros k. reflexivity.
Qed.

(** Every estimate leaves the stream it was given, less the variates it
    drew. *)
Lemma estimator_draws fuel :
  (forall (r : Ray F) depth flag s v s',
      receivedRadiance ord fuel r depth flag s = Some (v, s') ->
      exists m, drawn m s s') /\
  (forall (x o : Vec F) obj depth flag s v s',
      reflectedRadiance ord fuel x o obj depth flag s = Some (v, s') ->
      exists m, drawn m s s') /\
  (forall (x o : Vec F) obj depth flag s v s',
      indirectedRadiance ord fuel x o obj depth flag s = Some (v, s') ->
      exists m, drawn m s s').
Proof.
  induction fuel as [|fuel (IHrecv & IHrefl & IHind)].
  - repeat split; intros; discriminate.
  - repeat split.
    + intros r depth flag s v s'. rewrite receivedRadiance_S.
      destruct (intersect r 0) as [[hit t] id]. destruct hit.
      * cbv zeta.
        destruct (reflectedRadiance _ _ _ _ _ _ _ s) as [[L s1]|] eqn:Hrefl;
          [|discriminate].
        intros [= _ <-]. apply (IHrefl _ _ _ _ _ _ _ _ Hrefl).
      * intros [= _ <-]. exists 0%nat. apply drawn_none.
    + intros x o obj depth flag s v s'. rewrite reflectedRadiance_S.
      destruct ord.
      * pose proof (directedRadiance_draws x o obj flag s) as Hd.
        destruct (directedRadiance x o obj flag s) as [a s1]. cbn [snd] in Hd.
        destruct (indirectedRadiance _ _ _ _ _ _ _ s1) as [[b s2]|] eqn:Hind;
          [|discriminate].
        intros [= _ <-]. destruct (IHind _ _ _ _ _ _ _ _ Hind) as [m Hm].
        exists (2 + m)%nat. apply (drawn_then 2 m s s1 s2); [|exact Hm].
        intros k. now rewrite Hd.
      * destruct (indirectedRadiance _ _ _ _ _ _ _ s) as [[b s1]|] eqn:Hind;
          [|discriminate].
        pose proof (directedRadiance_draws x o obj flag s1) as Hd.
        destruct (directedRadiance x o obj flag s1) as [a s2]. cbn [snd] in Hd.
        intros [= _ <-]. destruct (IHind _ _ _ _ _ _ _ _ Hind) as [m Hm].
        exists (m + 2)%nat. apply (drawn_then m 2 s s1 s2); [exact Hm|].
        intros k. now rewrite Hd.
    + intros x o obj depth flag s v s'. rewrite indirectedRadiance_S.
      cbv zeta. unfold rng.
      destruct (ltb _ (s 0%nat)).
      * intros [= _ <-]. exists 1%nat. intros k. reflexivity.
      * pose proof (sample_draws (Sphere.brdf obj) (facing_normal x o obj) o
                      (fun k => s (S k))) as [m1 Hm1].
        destruct (sample _ _ _ _) as [[i pdf] s2]. cbn [snd] in Hm1.
        destruct (receivedRadiance _ _ _ _ _ s2) as [[L s3]|] eqn:Hrecv;
          [|discriminate].
        intros [= _ <-]. destruct (IHrecv _ _ _ _ _ _ Hrecv) as [m2 Hm2].
        exists (1 + (m1 + m2))%nat.
        apply (drawn_then 1 (m1 + m2) s (fun k => s (S k)) s3).
        -- intros k. reflexivity.
        -- apply (drawn_then m1 m2 _ s2 s3); assumption.
Qed.

(** A loop whose every finished turn draws at least [q] variates draws at
    least [n * q] in [n] turns. *)
Lemma for_draws {A} (q : nat) (body : Z -> A -> Run F A) :
  (forall i a s a' s', body i a s = Some (a', s') ->
     exists m, (q <= m)%nat /\ drawn m s s') ->
  forall n lo a s a' s', for_ n lo body a s = Some (a', s') ->
    exists m, (n * q <= m)%nat /\ drawn m s s'.
Proof.
  intros Hbody n. induction n as [|n IH]; intros lo a s a' s' Hrun.
  - cbn [for_] in Hrun. unfold done in Hrun. injection Hrun as _ <-.
    exists 0%nat. split; [lia | apply drawn_none].
  - cbn [for_] in Hrun. unfold then_ in Hrun.
    destruct (body lo a s) as [[a1 s1]|] eqn:Hstep; [|discriminate].
    destruct (Hbody _ _ _ _ _ Hstep) as (m1 & Hq & Hm1).
    destruct (IH _ _ _ _ _ Hrun) as (m2 & Hnq & Hm2).
    exists (m1 + m2)%nat. split; [lia|]. now apply (drawn_then m1 m2 s s1 s').
Qed.

(** Every sample draws the two variates of its offsets, and what its
    estimate draws. *)
Lemma one_sample_draws fuel (w h samps : Z) (cx cy : Vec F) (x y sx sy : Z)
  (r : Vec F) (s : Rng F) (r' : Vec F) (s' : Rng F) :
  one_sample ord fuel w h samps cx cy x y sx sy r s = Some (r', s') ->
  exists m, (2 <= m)%nat /\ drawn m s s'.
Proof.
  unfold one_sample, then_, lift, done, bind, ret, rng.
  destruct (receivedRadiance _ _ _ _ _ _) as [[L s1]|] eqn:Hrecv;
    [|discriminate].
  intros [= _ <-].
  destruct (proj1 (estimator_draws fuel) _ _ _ _ _ _ Hrecv) as [m Hm].
  exists (2 + m)%nat. split; [lia|].
  apply (drawn_then 2 m s (fun k => s (S (S k))) s1); [|exact Hm].
  intros k. reflexivity.
Qed.

(** The rendering draws at least two variates for each sample of each of
    the four subpixels of each pixel. *)
Lemma render_draws fuel (w h samps : Z) (s s' : Rng F) (c : list (Vec F)) :
  render ord fuel w h samps s = Some (c, s') ->
  exists m,
    (Z.to_nat h * (Z.to_nat w * (2 * (2 * (Z.to_nat samps * 2)))) <= m)%nat /\
    drawn m s s'.
Proof.
  unfold render. apply for_draws. intros y c0 s0 c0' s0'.
  apply for_draws. intros x c1 s1 c1' s1'.
  apply for_draws. intros sy c2 s2 c2' s2'.
  apply for_draws. intros sx c3 s3 c3' s3'.
  unfold then_, done.
  destruct (for_ _ _ _ _ s3) as [[r s4]|] eqn:Hsamples; [|discriminate].
  intros [= _ <-]. revert Hsamples. apply for_draws.
  intros i a t a' t'. apply one_sample_draws.
Qed.

(** A run of [main] that ends has drawn at least 8 variates for every pixel
    and every unit of the sample count. *)
Lemma main_draws fuel (argv : list string) (s s' : Rng F) (out : Outcome) :
  main ord fuel argv s = Some (out, s') ->
  exists m : nat,
    drawn m s s' /\ (8 * (480 * 360) * main_samps argv <= Z.of_nat m)%Z.
Proof.
  unfold main, then_, done.
  destruct (render ord fuel 480 360 (main_samps argv) s) as [[c s1]|] eqn:Hr;
    [|discriminate].
  intros [= _ <-]. destruct (render_draws _ _ _ _ _ _ _ Hr) as (m & Hm & Hd).
  exists m. split; [exact Hd|].
  apply Nat2Z.inj_le in Hm.
  rewrite !Nat2Z.inj_mul in Hm.
  rewrite (Z2Nat.id 360), (Z2Nat.id 480) in Hm by lia.
  destruct (Z.le_gt_cases 0 (main_samps argv)) as [Hpos|Hneg].
  - rewrite Z2Nat.id in Hm by exact Hpos. lia.
  - lia.
Qed.
End Draws.

(** ** Binary64: not-a-number *)

Section NotANumberBasics.
Context `{Libm}.
Local Open Scope float_scope.

Lemma Prim2SF_nan (x : float) : is_nan x = true -> Prim2SF x = S754_nan.
Proof. intros Hx. unfold Prim2SF. now rewrite Hx. Qed.

Lemma ltb_nan_l (x y : float) : is_nan x = true -> PrimFloat.ltb x y = false.
Proof.
  intros Hx. rewrite FloatAxioms.ltb_spec, (Prim2SF_nan x Hx).
  unfold SFltb. now destruct (Prim2SF y).
Qed.

Lemma ltb_nan_r (x y : float) : is_nan y = true -> PrimFloat.ltb x y = false.
Proof.
  intros Hy. rewrite FloatAxioms.ltb_spec, (Prim2SF_nan y Hy).
  unfold SFltb. now destruct (Prim2SF x) as [[|]|[|]| |[|] ? ?].
Qed.

Lemma eqb_nan_l (x y : float) : is_nan x = true -> PrimFloat.eqb x y = false.
Proof.
  intros Hx. rewrite FloatAxioms.eqb_spec, (Prim2SF_nan x Hx).
  unfold SFeqb. now destruct (Prim2SF y).
Qed.

(** A NaN channel: when [pow] returns a NaN for it, as the C library does
    for a NaN base, [toInt] returns what the conversion of a NaN to [int]
    leaves. *)
Lemma toInt_nan64 (x : float) :
  is_nan x = true ->
  is_nan (libm_pow x (lit 1.0 / lit 2.2)%fl) = true ->
  toInt x = (-2147483648)%Z.
Proof.
  intros Hx Hpow. unfold toInt, clamp.
  cbn [lit fmul fadd fdiv fpow ltb to_int binary64] in *.
  rewrite (ltb_nan_l x _ Hx), (ltb_nan_r _ x Hx).
  unfold float_to_int.
  rewrite FloatAxioms.add_spec, FloatAxioms.mul_spec, (Prim2SF_nan _ Hpow).
  reflexivity.
Qed.
End NotANumberBasics.
(** * Claims *)

Section EstimatorExact.
Local Open Scope R_scope.
Variable ord : Order.

(** C1.  The indirect estimate uses the survival probability [p = 1] up to
    depth 5 and [p = 0.9] beyond; it draws one variate [u] and returns the
    zero colour when [u > p]; otherwise it samples [(i, pdf)] from the BRDF
    of the sphere hit and returns the estimate along the ray from [x] in
    direction [i] at [depth + 1], each channel multiplied by
    [eval(n,o,i) * (n.i) / (pdf * p)]. *)
Theorem indirectedRadiance_roulette fuel (x o : Vec R) (obj : Sphere R)
  (depth : Z) (flag : bool) (s : Rng R) :
  let p := if (depth <=? 5)%Z then 1 else 0.9 in
  let u := s 0%nat in
  let s1 := fun k => s (S k) in
  let n := facing_normal x o obj in
  let '(i, pdf, s2) := sample (Sphere.brdf obj) n o s1 in
  indirectedRadiance ord (S fuel) x o obj depth flag s =
  if Rlt_dec p u then Some (Vec.mk 0 0 0, s1)
  else
    match receivedRadiance ord fuel (Ray.mk x i) (depth + 1) flag s2 with
    | Some (L, s3) =>
        Some (Vec.mult L
                (Vec.scale (eval (Sphere.brdf obj) n o i) (Vec.dot n i / (pdf * p))),
              s3)
    | None => None
    end.
Proof.
  intros p u s1 n.
  pose proof (indirectedRadiance_S ord fuel x o obj depth flag s) as Hstep.
  cbv zeta in Hstep. unfold rng in Hstep. fold u s1 n in Hstep.
  destruct (sample (Sphere.brdf obj) n o s1) as [[i pdf] s2].
  rewrite Hstep. arith.
  assert (Hp : (if (depth <=? 5)%Z then Q2R 1.0 else Q2R 0.9) = p).
  { unfold p. destruct (depth <=? 5)%Z; literals; lra. }
  rewrite Hp, Rltb_dec. destruct (Rlt_dec p u).
  - now rewrite Vec_zero_R.
  - destruct (receivedRadiance _ _ _ _ _ _) as [[L s3]|]; [|reflexivity].
    replace (Q2R 1) with 1 by (literals; lra).
    now rewrite scale_twice.
Qed.

(** C2.  The direct term samples [(x_l, n_l, pdf_l)] on the light (sphere 7)
    and traces the ray from [x] in the direction [i] of [x_l].  With [x_hit]
    the point of that ray at the distance [intersect] reports, it returns
    [Le * eval(n,o,i) * (n.i) * (n_l.(-i)) / (d^2 * pdf_l)] when the squared
    distance from [x_hit] to [x_l] is below 1e-4, [d^2] being the squared
    distance from [x] to [x_l], and the zero colour otherwise.  For a
    variate [u1] in [[0,1]] the test passes only when [intersect] reports a
    hit, so that [x_hit] is then the nearest hit point of the shadow ray. *)
Theorem directedRadiance_shadow_ray (x o : Vec R) (obj : Sphere R)
  (flag : bool) (s : Rng R) :
  0 <= s 0%nat <= 1 ->
  let '(x_l, n_l, pdf_l, s') := luminaireSample (sphere_at 7) s in
  let Le := Sphere.e (sphere_at 7) in
  let n := facing_normal x o obj in
  let i := Vec.normalize (Vec.sub x_l x) in
  let d2 := Vec.dot (Vec.sub x_l x) (Vec.sub x_l x) in
  let '(hit, t, _) := intersect (Ray.mk x i) 0 in
  let x_hit := Vec.add x (Vec.scale i t) in
  let near := Vec.dot (Vec.sub x_hit x_l) (Vec.sub x_hit x_l) in
  directedRadiance x o obj flag s =
  (if Rlt_dec near 1e-4
   then (Vec.scale (Vec.mult Le (eval (Sphere.brdf obj) n o i))
           (Vec.dot n i * Vec.dot n_l (Vec.sub (Vec.mk 0 0 0) i) / (d2 * pdf_l)),
         s')
   else (Vec.mk 0 0 0, s')) /\
  (near < 1e-4 -> hit = true).
Proof.
  intros Hu.
  pose proof (directedRadiance_R x o obj flag s) as Hshape.
  pose proof (shadow_ray_pass_is_hit x s Hu) as Hhit.
  destruct (luminaireSample (sphere_at 7) s) as [[[x_l n_l] pdf_l] s'].
  cbv zeta in *.
  destruct (intersect _ 0) as [[hit t] id].
  split; [exact Hshape | exact Hhit].
Qed.

Lemma directedRadiance_shadow_ray_witness :
  let x := Vec.mk 60 70 81.6 in
  let o := Vec.mk 0 (-1) 0 in
  let obj := sphere_at 4 in
  let '(x_l, n_l, pdf_l, s') := luminaireSample (sphere_at 7) sample_stream in
  let Le := Sphere.e (sphere_at 7) in
  let n := facing_normal x o obj in
  let i := Vec.normalize (Vec.sub x_l x) in
  let d2 := Vec.dot (Vec.sub x_l x) (Vec.sub x_l x) in
  let '(hit, t, _) := intersect (Ray.mk x i) 0 in
  let x_hit := Vec.add x (Vec.scale i t) in
  let near := Vec.dot (Vec.sub x_hit x_l) (Vec.sub x_hit x_l) in
  directedRadiance x o obj true sample_stream =
  (if Rlt_dec near 1e-4
   then (Vec.scale (Vec.mult Le (eval (Sphere.brdf obj) n o i))
           (Vec.dot n i * Vec.dot n_l (Vec.sub (Vec.mk 0 0 0) i) / (d2 * pdf_l)),
         s')
   else (Vec.mk 0 0 0, s')) /\
  (near < 1e-4 -> hit = true).
Proof.
  apply (directedRadiance_shadow_ray (Vec.mk 60 70 81.6) (Vec.mk 0 (-1) 0)
           (sphere_at 4) true sample_stream).
  simpl. lra.
Defined.
End EstimatorExact.

Section GeometryExact.
Local Open Scope R_scope.

(** C3, as stated, fails on [long_ray] and Ball 1: the value returned is
    neither the smallest root beyond [eps] nor 0. *)
Lemma Sphere_intersect_long_ray_not_root :
  Sphere.intersect (sphere_at 5) long_ray = 16.5 /\
  ~ nearest_root (sphere_at 5) long_ray (Sphere.intersect (sphere_at 5) long_ray).
Proof.
  destruct long_ray_on_ball as [Hval Hquad]. split; [exact Hval|].
  rewrite Hval. intros [(Hroot & _) | (_ & Hzero)]; [contradiction | lra].
Qed.

(** C3, amended.  In exact arithmetic.  For every ray whose direction has
    unit length, the test on a sphere returns the smallest root beyond
    [eps = 1e-4] of [t^2 (d.d) + 2 t (o-p).d + (o-p).(o-p) - r^2 = 0], and 0
    when there is none.  For every ray, of unit direction or not, the
    scene-level [intersect] reports a miss exactly when no sphere yields a
    positive distance below 1e20, and on a hit returns the least positive
    distance the test yields over the eight spheres, with the id of a sphere
    at that distance. *)
Theorem intersect_unit_direction (r : Ray R) :
  (unit_length (Ray.d r) ->
   forall s : Sphere R, nearest_root s r (Sphere.intersect s r)) /\
  (forall id0 : nat, nearest_hit r (intersect r id0)).
Proof.
  split.
  - intros Hunit s. now apply Sphere_intersect_nearest_root.
  - intros id0. apply intersect_nearest_hit.
Qed.

Lemma intersect_unit_direction_witness :
  (forall s : Sphere R, nearest_root s unit_ray (Sphere.intersect s unit_ray)) /\
  (forall id0 : nat, nearest_hit long_ray (intersect long_ray id0)).
Proof.
  split.
  - apply (proj1 (intersect_unit_direction unit_ray)).
    unfold unit_length, Vec.dot. simpl. lra.
  - apply (proj2 (intersect_unit_direction long_ray)).
Defined.

(** The amended statement is one of exact arithmetic: [grazing_ray] leaves
    the left wall behind and misses it, while in binary64 the rounding of
    [b*b - op.op + rad*rad] makes a hit of it
    ([Sphere_intersect_grazing_ray64] below). *)
Example Sphere_intersect_grazing_ray :
  Sphere.intersect (sphere_at 0) grazing_ray = 0 /\
  nearest_root (sphere_at 0) grazing_ray 0.
Proof.
  assert (Hmiss : Sphere.intersect (sphere_at 0) grazing_ray = 0).
  { apply Sphere_intersect_left_behind.
    - unfold sphere_at, grazing_ray, Vec.dot, Vec.sub. simpl. arith. literals. lra.
    - unfold sphere_at, grazing_ray, Vec.dot, Vec.sub. simpl. arith. literals. lra. }
  split; [exact Hmiss|]. rewrite <- Hmiss.
  apply Sphere_intersect_nearest_root.
  unfold unit_length, grazing_ray, Vec.dot. simpl. lra.
Qed.

(** C4.  The specular sampler returns the mirror direction
    [2 (n.o) n - o] with density 1 and draws nothing; the specular [eval]
    returns [ks * (1 / (n.i))] when every component of [i] equals that of the
    mirror direction, and the zero colour for every other [i]. *)
Theorem SpecularBRDF_mirror (ks n o i : Vec R) (s : Rng R) :
  let m := Vec.mk (2 * Vec.dot n o * Vec.x n - Vec.x o)
                  (2 * Vec.dot n o * Vec.y n - Vec.y o)
                  (2 * Vec.dot n o * Vec.z n - Vec.z o) in
  SpecularBRDF_sample ks n o s = (m, 1, s) /\
  ((Vec.x i = Vec.x m /\ Vec.y i = Vec.y m /\ Vec.z i = Vec.z m) /\
   SpecularBRDF_eval ks n o i = Vec.scale ks (1 / Vec.dot n i)
   \/
   ~ (Vec.x i = Vec.x m /\ Vec.y i = Vec.y m /\ Vec.z i = Vec.z m) /\
   SpecularBRDF_eval ks n o i = Vec.mk 0 0 0).
Proof.
  intros m.
  assert (Hm : mirroredDirection n o = m).
  { unfold mirroredDirection, m, Vec.sub, Vec.scale. cbn [Vec.x Vec.y Vec.z].
    arith. replace (Q2R 2.0) with 2 by (literals; lra).
    apply Vec_eq; cbn [Vec.x Vec.y Vec.z]; ring. }
  destruct (SpecularBRDF_S ks n o i s) as [Hsample Heval].
  rewrite Hm in Hsample, Heval. arith. rewrite lit_1 in Hsample, Heval.
  split; [exact Hsample|]. rewrite Heval, Vec_zero_R.
  destruct (Reqb (Vec.x i) (Vec.x m)) eqn:Hx;
    [apply Reqb_true in Hx | apply Reqb_false in Hx];
    (destruct (Reqb (Vec.y i) (Vec.y m)) eqn:Hy;
     [apply Reqb_true in Hy | apply Reqb_false in Hy]);
    (destruct (Reqb (Vec.z i) (Vec.z m)) eqn:Hz;
     [apply Reqb_true in Hz | apply Reqb_false in Hz]);
    cbn [andb]; solve [left; auto | right; split; [tauto | reflexivity]].
Qed.

(** C5.  With [u1], [u2] the next two variates and [z = 2 u1 - 1], the
    light sampler returns the normal
    [(sqrt(1-z^2) cos(2 PI u2), sqrt(1-z^2) sin(2 PI u2), z)], the point
    [centre + n * radius] and the density [1 / (4 PI radius^2)], [PI] being
    the constant of the program. *)
Theorem luminaireSample_uniform (obj : Sphere R) (s : Rng R) :
  let u1 := s 0%nat in
  let u2 := s 1%nat in
  let z := 2 * u1 - 1 in
  let n := Vec.mk (sqrt (1 - z ^ 2) * cos (2 * PI * u2))
                  (sqrt (1 - z ^ 2) * sin (2 * PI * u2)) z in
  luminaireSample obj s =
  (Vec.add (Sphere.p obj) (Vec.scale n (Sphere.rad obj)), n,
   1 / (4 * PI * Sphere.rad obj ^ 2),
   fun k => s (S (S k))).
Proof.
  unfold luminaireSample, bind, ret, rng. arith.
  replace (Q2R 2) with 2 by (literals; lra).
  replace (Q2R 1) with 1 by (literals; lra).
  replace (Q2R 4) with 4 by (literals; lra).
  cbv zeta.
  replace ((2 * s 0%nat - 1) * (2 * s 0%nat - 1)) with ((2 * s 0%nat - 1) ^ 2) by ring.
  replace (4 * PI * Sphere.rad obj * Sphere.rad obj)
    with (4 * PI * Sphere.rad obj ^ 2) by ring.
  reflexivity.
Qed.
End GeometryExact.

Section MissAndHit.
Context {F : Type} `{Arith F}.
Variable ord : Order.

(** C6.  With fuel for the call, a ray that misses the scene yields the zero
    colour as an ordinary result and draws nothing; a ray that hits yields
    the emission [e] of the sphere hit plus the reflected radiance at the
    hit point [r.o + r.d*t] toward [-r.d], and the reflected radiance is the
    sum of the direct and the indirect one. *)
Theorem receivedRadiance_miss_or_hit fuel (r : Ray F) depth flag (s : Rng F) :
  receivedRadiance ord (S fuel) r depth flag s =
  (let '(hit, t, id) := intersect r 0 in
   if hit then
     let x := Vec.add (Ray.o r) (Vec.scale (Ray.d r) t) in
     let o := Vec.normalize (Vec.sub (Vec.mk (lit 0) (lit 0) (lit 0)) (Ray.d r)) in
     match reflectedRadiance ord fuel x o (sphere_at id) depth flag s with
     | Some (L, s') => Some (Vec.add (Sphere.e (sphere_at id)) L, s')
     | None => None
     end
   else Some (Vec.mk (lit 0) (lit 0) (lit 0), s)) /\
  forall (x o : Vec F) (obj : Sphere F),
    reflectedRadiance ord (S fuel) x o obj depth flag s =
    match ord with
    | DirectFirst =>
        let '(a, s1) := directedRadiance x o obj flag s in
        match indirectedRadiance ord fuel x o obj depth flag s1 with
        | Some (b, s2) => Some (Vec.add a b, s2)
        | None => None
        end
    | IndirectFirst =>
        match indirectedRadiance ord fuel x o obj depth flag s with
        | Some (b, s1) =>
            let '(a, s2) := directedRadiance x o obj flag s1 in
            Some (Vec.add a b, s2)
        | None => None
        end
    end.
Proof.
  split.
  - apply receivedRadiance_S.
  - intros x o obj. apply reflectedRadiance_S.
Qed.
End MissAndHit.

Section OutputBinary64.
Local Existing Instance libm_uncalled.

(** C7, as stated, fails on the program's arithmetic: [clamp] lets a NaN
    through, and with a C library whose [pow] returns a NaN for a NaN base
    the number written for a NaN channel is -2147483648, outside
    [[0, 255]]. *)
Lemma toInt_nan_out_of_range :
  PrimFloat.is_nan (clamp PrimFloat.nan) = true /\
  toInt PrimFloat.nan = (-2147483648)%Z /\
  ~ (0 <= toInt PrimFloat.nan <= 255)%Z /\
  ppm_body [Vec.mk PrimFloat.nan PrimFloat.nan PrimFloat.nan]
  = "-2147483648 -2147483648 -2147483648 "%string.
Proof.
  assert (Hnan : toInt PrimFloat.nan = (-2147483648)%Z).
  { apply toInt_nan64; reflexivity. }
  split; [reflexivity|]. split; [exact Hnan|]. split.
  - rewrite Hnan. lia.
  - unfold ppm_body. cbn [flat_map pixel_ints app map Vec.x Vec.y Vec.z].
    rewrite Hnan. reflexivity.
Qed.
End OutputBinary64.

Section Output.
Local Open Scope R_scope.

(** C7, amended.  In exact arithmetic.  For every real [x], [clamp] maps [x]
    below 0 to 0 and above 1 to 1, and [toInt x] is an integer nearest to
    [clamp(x)^(1/2.2) * 255] (the power is 0 for the base 0 and
    [exp (ln c / 2.2)] for a base [c > 0]) and lies in [[0, 255]].  The text
    of the image of every run of [main] that ends is the header ([P3], then
    the width 480 and the height 360, then 255, each line closed by a line
    break) followed, for each of the 480 * 360 pixels, by [toInt] of its
    three channels, each in decimal and followed by a space; every one of
    these numbers lies in [[0, 255]]. *)
Theorem toInt_nearest_in_range :
  (forall x : R,
      let c := if Rlt_dec x 0 then 0 else if Rlt_dec 1 x then 1 else x in
      let y := (if Req_dec_T c 0 then 0 else exp (ln c / 2.2)) * 255 in
      clamp x = c /\
      (forall m : Z, Rabs (IZR (toInt x) - y) <= Rabs (IZR m - y)) /\
      (0 <= toInt x <= 255)%Z) /\
  (forall ord fuel argv (s s' : Rng R) out,
      main ord fuel argv s = Some (out, s') ->
      exists c : list (Vec R),
        let channels :=
          flat_map (fun v => [toInt (Vec.x v); toInt (Vec.y v); toInt (Vec.z v)])
            c in
        Z.of_nat (List.length c) = 172800%Z /\
        image_ppm out
        = ("P3" ++ String "010" "" ++ "480 360" ++ String "010" "" ++ "255"
           ++ String "010" ""
           ++ String.concat ""
                (map (fun n => NilZero.string_of_int (Z.to_int n) ++ " ")
                   channels))%string /\
        Forall (fun n => (0 <= n <= 255)%Z) channels).
Proof.
  split.
  - intros x c y.
    assert (Hc : clamp x = c) by apply clamp_cases.
    split; [exact Hc|].
    assert (Hy : y = Rpow (clamp x) (1 / 2.2) * 255).
    { unfold y. rewrite Hc. unfold Rpow, Rpower. destruct (Req_dec_T c 0).
      - destruct (Req_dec_T (1 / 2.2) 0); [lra | reflexivity].
      - do 2 f_equal. unfold Rdiv. ring. }
    split.
    + rewrite Hy. apply nearest_of_half. apply toInt_value.
    + apply toInt_range.
  - intros ord fuel argv s s' out Hmain.
    destruct (main_text ord fuel argv s s' out Hmain) as (c & _ & Hlen & ->).
    exists c. cbv zeta. split; [exact Hlen|]. split.
    + cbn [image_ppm]. apply ppm_text.
    + apply (pixel_ints_range c).
Qed.

Lemma toInt_nearest_in_range_witness :
  (0 <= toInt (1 / 2)%R <= 255)%Z /\
  exists out c,
    main DirectFirst 0 ["simplept"; "0"]%string sample_stream
    = Some (out, sample_stream) /\
    Z.of_nat (List.length c) = 172800%Z /\
    image_ppm out
    = ("P3" ++ String "010" "" ++ "480 360" ++ String "010" "" ++ "255"
       ++ String "010" ""
       ++ String.concat ""
            (map (fun n => NilZero.string_of_int (Z.to_int n) ++ " ")
               (flat_map
                  (fun v => [toInt (Vec.x v); toInt (Vec.y v); toInt (Vec.z v)])
                  c)))%string /\
    Forall (fun n => (0 <= n <= 255)%Z)
      (flat_map (fun v => [toInt (Vec.x v); toInt (Vec.y v); toInt (Vec.z v)]) c).
Proof.
  destruct toInt_nearest_in_range as (Hx & Hmain).
  split; [apply (Hx (1 / 2))|].
  destruct (main_no_samples DirectFirst 0 ["simplept"; "0"]%string sample_stream)
    as (out & Hrun & _).
  { vm_compute. intros Hgt. discriminate Hgt. }
  exists out. destruct (Hmain _ _ _ _ _ _ Hrun) as (c & Hc).
  exists c. split; [exact Hrun | exact Hc].
Defined.
End Output.

Section Arguments.
Local Open Scope Z_scope.

(** C8.  With exactly one argument the sample count per subpixel is the
    integer the argument denotes divided by 4, rounding toward zero: for the
    decimal numeral of every [int] [n] it is [n / 4], and for an argument
    that starts with a character above ['9'] it is 0.  With any other number
    of arguments, none in particular, it is 1.  Nothing is checked.  With a
    count that is not positive [main] draws no variate, whatever the fuel
    and the arithmetic, writes the header and the 480 * 360 pixels and
    returns 0; over the reals every number it writes is 0.  Every run of
    [main] that ends returns 0 and has rendered with that count, drawing at
    least 8 variates for every pixel and every unit of it (two for each
    sample of each of the four subpixels). *)
Theorem main_samps_unvalidated (ord : Order) (fuel : nat) (prog : string) :
  (forall n : Z, - 2 ^ 31 <= n < 2 ^ 31 ->
     main_samps [prog; NilZero.string_of_int (Z.to_int n)] = Z.quot n 4) /\
  (forall (c : ascii) (rest : string), (57 < nat_of_ascii c)%nat ->
     main_samps [prog; String c rest] = 0) /\
  main_samps [prog] = 1 /\
  (forall argv : list string, List.length argv <> 2%nat -> main_samps argv = 1) /\
  (forall (F : Type) (A : Arith F) (argv : list string) (s : Rng F),
     main_samps argv <= 0 ->
     exists c : list (Vec F),
       Z.of_nat (List.length c) = 172800 /\
       main ord fuel argv s
       = Some ({| exit_status := 0;
                  image_ppm :=
                    ("P3" ++ String "010" "" ++ "480 360" ++ String "010" ""
                     ++ "255" ++ String "010" ""
                     ++ String.concat ""
                          (map (fun n => NilZero.string_of_int (Z.to_int n) ++ " ")
                             (flat_map
                                (fun v =>
                                   [toInt (Vec.x v); toInt (Vec.y v);
                                    toInt (Vec.z v)])
                                c)))%string |},
               s)) /\
  (forall (argv : list string) (s : Rng R),
     main_samps argv <= 0 ->
     main ord fuel argv s
     = Some ({| exit_status := 0;
                image_ppm :=
                  ("P3" ++ String "010" "" ++ "480 360" ++ String "010" ""
                   ++ "255" ++ String "010" ""
                   ++ String.concat ""
                        (repeat "0 0 0 " (Z.to_nat (480 * 360))))%string |},
             s)) /\
  (forall (F : Type) (A : Arith F) (argv : list string) (s s' : Rng F)
          (out : Outcome),
     main ord fuel argv s = Some (out, s') ->
     exit_status out = 0 /\
     (exists c, render ord fuel 480 360 (main_samps argv) s = Some (c, s')) /\
     exists m : nat,
       drawn m s s' /\ 8 * (480 * 360) * main_samps argv <= Z.of_nat m).
Proof.
  split.
  { intros n Hn. unfold main_samps. cbn [List.length Nat.eqb nth].
    now rewrite atoi_decimal. }
  split.
  { intros c rest Hc. unfold main_samps. cbn [List.length Nat.eqb nth].
    now rewrite atoi_not_numeric. }
  split; [reflexivity|]. split.
  { intros argv Hlen. unfold main_samps.
    destruct (Nat.eqb_spec (List.length argv) 2); [contradiction | reflexivity]. }
  split.
  { intros F A argv s Hsamps.
    destruct (main_no_samples ord fuel argv s Hsamps) as (out & Hrun & _).
    destruct (main_text ord fuel argv s s out Hrun) as (c & _ & Hlen & Hout).
    exists c. split; [exact Hlen|].
    rewrite Hrun, Hout, ppm_text. reflexivity. }
  split.
  { intros argv s Hsamps. now apply main_black. }
  intros F A argv s s' out Hmain.
  destruct (main_text ord fuel argv s s' out Hmain) as (c & Hrender & _ & Hout).
  split; [now rewrite Hout|]. split; [now exists c|].
  apply (main_draws ord fuel argv s s' out Hmain).
Qed.

(** The arguments ["-8"] and ["abc"] give the counts -2 and 0, and with
    ["abc"] the program writes the black image and returns 0. *)
Lemma main_samps_unvalidated_witness :
  main_samps ["simplept"; "-8"]%string = -2 /\
  main_samps ["simplept"; "abc"]%string = 0 /\
  main DirectFirst 0 ["simplept"; "abc"]%string sample_stream
  = Some ({| exit_status := 0;
             image_ppm :=
               ("P3" ++ String "010" "" ++ "480 360" ++ String "010" ""
                ++ "255" ++ String "010" ""
                ++ String.concat ""
                     (repeat "0 0 0 " (Z.to_nat (480 * 360))))%string |},
          sample_stream).
Proof.
  destruct (main_samps_unvalidated DirectFirst 0 "simplept")
    as (Hnum & Hother & _ & _ & _ & Hblack & _).
  split; [apply (Hnum (-8)); lia|].
  assert (Habc : main_samps ["simplept"; "abc"]%string = 0).
  { apply (Hother "a"%char "bc"%string). vm_compute. lia. }
  split; [exact Habc|].
  apply Hblack. rewrite Habc. lia.
Defined.

(** An argument beyond the range of [int] wraps around. *)
Example main_samps_wraps :
  main_samps ["simplept"; "2147483648"]%string = -536870912.
Proof. vm_compute. reflexivity. Qed.
End Arguments.

Section Flag.
Context {F : Type} `{Arith F}.
Variable ord : Order.

(** C9.  For every ray, depth, stream of variates and amount of fuel, the
    estimator gives the same outcome for the two values of the flag; so do
    the three functions it reaches. *)
Theorem receivedRadiance_flag_irrelevant fuel (r : Ray F) depth (s : Rng F) :
  receivedRadiance ord fuel r depth true s =
  receivedRadiance ord fuel r depth false s /\
  (forall (x o : Vec F) obj,
      reflectedRadiance ord fuel x o obj depth true s =
      reflectedRadiance ord fuel x o obj depth false s /\
      indirectedRadiance ord fuel x o obj depth true s =
      indirectedRadiance ord fuel x o obj depth false s /\
      directedRadiance x o obj true s = directedRadiance x o obj false s).
Proof.
  destruct (flag_unread ord fuel) as (Hrecv & Hrefl & Hind).
  split; [apply Hrecv|]. intros x o obj.
  split; [apply Hrefl|]. split; [apply Hind | reflexivity].
Qed.
End Flag.

Section DiffuseSampling.
Local Open Scope R_scope.

(** C10.  For a unit normal [n] and a first variate [u1] in [[0,1)] (and any
    second variate), the direction [i] returned by the diffuse sampler has
    unit length and satisfies [n.i = sqrt u1 >= 0]; the returned density is
    [(n.i)/PI], with [PI] the constant of the program, lies in [[0, 1/PI]]
    and is 0 when [u1 = 0]. *)
Theorem DiffuseBRDF_sample_cosine (kd n o : Vec R) (s : Rng R) :
  unit_length n -> 0 <= s 0%nat < 1 ->
  let '(i, pdf, _) := DiffuseBRDF_sample kd n o s in
  unit_length i /\
  Vec.dot n i = sqrt (s 0%nat) /\ 0 <= Vec.dot n i /\
  pdf = Vec.dot n i / PI /\ 0 <= pdf <= 1 / PI /\
  (s 0%nat = 0 -> pdf = 0).
Proof.
  intros Hn Hu1.
  unfold DiffuseBRDF_sample, bind, rng, ret.
  pose proof (createLocalCoord_frame n Hn) as Hframe.
  destruct (createLocalCoord n) as [[u v] w].
  destruct Hframe as (-> & Huu & Hvv & Huv & Huw & Hvw).
  arith. rewrite lit_1.
  set (u1 := s 0%nat) in *. set (phi := Q2R 2.0 * PI * s 1%nat).
  set (z := sqrt u1). set (r := sqrt (1 - z * z)).
  assert (Hz : z * z = u1) by (apply sqrt_sqrt; lra).
  assert (Hr : r * r = 1 - z * z) by (apply sqrt_sqrt; lra).
  assert (Hz0 : 0 <= z) by apply sqrt_pos.
  assert (Hz1 : z <= 1).
  { rewrite <- sqrt_1. apply sqrt_le_1_alt. lra. }
  assert (Htrig : cos phi * cos phi + sin phi * sin phi = 1).
  { pose proof (sin2_cos2 phi) as Hsc. unfold Rsqr in Hsc. lra. }
  set (a := Vec.add (Vec.add (Vec.scale u (r * cos phi)) (Vec.scale v (r * sin phi)))
                    (Vec.scale n z)).
  assert (Ha : unit_length a).
  { unfold unit_length, a. rewrite dot_combination, Huu, Hvv, Huv, Huw, Hvw, Hn.
    transitivity (r * r * (cos phi * cos phi + sin phi * sin phi) + z * z); [ring|].
    rewrite Htrig, Hr. ring. }
  rewrite (normalize_unit a Ha).
  assert (Hna : Vec.dot n a = z).
  { unfold a. rewrite dot_combination_axis, Huw, Hvw, Hn. ring. }
  pose proof PI_pos as HPI. unfold PI in HPI. arith.
  rewrite Hna. repeat split; try assumption; try lra.
  - apply Rmult_le_pos; [assumption | left; now apply Rinv_0_lt_compat].
  - unfold Rdiv. apply Rmult_le_compat_r; [left; now apply Rinv_0_lt_compat | lra].
  - intros H0. unfold z. rewrite H0, sqrt_0. unfold Rdiv. ring.
Qed.

(** With [u1 = 0] the density returned is 0. *)
Lemma DiffuseBRDF_sample_cosine_witness :
  snd (fst (DiffuseBRDF_sample (Vec.mk 0 0 0) (Vec.mk 0 0 1) (Vec.mk 0 0 1)
              zero_stream)) = 0.
Proof.
  pose proof (DiffuseBRDF_sample_cosine (Vec.mk 0 0 0) (Vec.mk 0 0 1)
                (Vec.mk 0 0 1) zero_stream) as Hsample.
  destruct (DiffuseBRDF_sample _ _ _ _) as [[i pdf] s'].
  apply Hsample.
  - unfold unit_length, Vec.dot. simpl. lra.
  - unfold zero_stream. lra.
  - reflexivity.
Defined.
End DiffuseSampling.

(** ** Binary64: the embedding at work *)

Section Binary64Runs.
Context `{Libm}.
Local Open Scope float_scope.
Local Set Warnings "-inexact-float".

(** The literals of the program: [float_of_Q] agrees with the parser of
    binary64 constants. *)
Example literals64 :
  map float_of_Q
    [3.1415926535897932384626433832795; 1e-4; 0.1; 2.2; 0.5; 0.25; 0.75; 0.9;
     0.999; 1e5; 1e20; 40.8; 81.6; 16.5; 295.6; -0.042612; 0.5135; 0.0001]%Q
  = [3.1415926535897932384626433832795; 1e-4; 0.1; 2.2; 0.5; 0.25; 0.75; 0.9;
     0.999; 1e5; 1e20; 40.8; 81.6; 16.5; 295.6; -0.042612; 0.5135; 0.0001].
Proof. vm_compute. reflexivity. Qed.

(** On [long_ray64] the test on Ball 1 returns 16.5 in binary64 as well. *)
Example Sphere_intersect_long_ray64 :
  Sphere.intersect (sphere_at 5) long_ray64 = 16.5.
Proof. vm_compute. reflexivity. Qed.

(** The axis of the camera meets the back wall (sphere 2) first. *)
Example intersect_axis_ray64 :
  intersect axis_ray64 0 = (true, 295.86824118948425, 2%nat).
Proof. vm_compute. reflexivity. Qed.

(** A ray that leaves the scene is a miss: [t] stays at 1e20, [id] at the
    caller's value, and the estimator returns black without drawing. *)
Example intersect_away_ray64 (id : nat) :
  intersect away_ray64 id = (false, 1e20, id).
Proof. vm_compute. reflexivity. Qed.

Example receivedRadiance_away_ray64 (ord : Order) (s : Rng float) :
  receivedRadiance ord 1 away_ray64 1 true s = Some (Vec.mk 0 0 0, s).
Proof. vm_compute. reflexivity. Qed.

(** Rounding makes a hit of a miss: in binary64 the test on the left wall
    returns about 0.000194 for [grazing_ray64] and the scan reports the left
    wall, while in exact arithmetic the ray misses that sphere
    ([Sphere_intersect_grazing_ray]). *)
Example Sphere_intersect_grazing_ray64 :
  Sphere.intersect (sphere_at 0) grazing_ray64 = 0x1.96969026a12e0p-13 /\
  intersect grazing_ray64 0 = (true, 0x1.96969026a12e0p-13, 0%nat).
Proof. vm_compute. split; reflexivity. Qed.

(** [clamp] lets a NaN through. *)
Example clamp_nan64 : PrimFloat.is_nan (clamp nan) = true.
Proof. vm_compute. reflexivity. Qed.
End Binary64Runs.

(** * Further properties *)

(** ** Vector algebra *)

Section VectorAlgebra.
Local Open Scope R_scope.

(** X1.  [cross] gives a vector orthogonal to both operands, changes sign
    when they are swapped, and its squared length is
    [(a.a)(b.b) - (a.b)^2]. *)
Theorem cross_orthogonal (a b : Vec R) :
  Vec.dot (Vec.cross a b) a = 0 /\
  Vec.dot (Vec.cross a b) b = 0 /\
  Vec.cross b a = Vec.scale (Vec.cross a b) (-1) /\
  Vec.dot (Vec.cross a b) (Vec.cross a b)
  = Vec.dot a a * Vec.dot b b - Vec.dot a b * Vec.dot a b.
Proof.
  repeat split; try (components; ring).
  apply Vec_eq; components; ring.
Qed.

(** X2.  [normalize] of a vector that is not 0 has unit length, points the
    same way (it is the vector times a positive factor) and is left alone by
    a second [normalize]. *)
Theorem normalize_direction (a : Vec R) :
  0 < Vec.dot a a ->
  unit_length (Vec.normalize a) /\
  (exists k, 0 < k /\ Vec.normalize a = Vec.scale a k) /\
  Vec.normalize (Vec.normalize a) = Vec.normalize a.
Proof.
  intros Ha. pose proof (normalize_unit_length a Ha) as Hunit.
  split; [exact Hunit|]. split.
  - exists (1 / sqrt (Vec.dot a a)). split.
    + apply Rdiv_lt_0_compat; [lra | now apply sqrt_lt_R0].
    + unfold Vec.normalize, Vec.dot. arith. now rewrite lit_1.
  - now apply normalize_unit.
Qed.

Lemma normalize_direction_witness :
  unit_length (Vec.normalize (Vec.mk 3 0 4)) /\
  (exists k, 0 < k /\ Vec.normalize (Vec.mk 3 0 4) = Vec.scale (Vec.mk 3 0 4) k) /\
  Vec.normalize (Vec.normalize (Vec.mk 3 0 4)) = Vec.normalize (Vec.mk 3 0 4).
Proof.
  apply (normalize_direction (Vec.mk 3 0 4)).
  unfold Vec.dot. simpl. lra.
Defined.

(** X3.  Over the reals, for a unit normal, [createLocalCoord] returns a
    right-handed
    orthonormal frame whose third axis is the normal. *)
Theorem createLocalCoord_orthonormal (n : Vec R) :
  unit_length n ->
  let '(u, v, w) := createLocalCoord n in
  w = n /\ unit_length u /\ unit_length v /\
  Vec.dot u v = 0 /\ Vec.dot u w = 0 /\ Vec.dot v w = 0 /\
  Vec.cross u v = w.
Proof.
  intros Hn. pose proof (createLocalCoord_frame n Hn) as Hframe.
  unfold createLocalCoord in *. cbv zeta in *.
  set (u := Vec.normalize _) in *.
  destruct Hframe as (_ & Huu & Hvv & Huv & Huw & Hvw).
  repeat split; try assumption.
  destruct n as [nx ny nz], u as [ux uy uz].
  unfold unit_length, Vec.dot, Vec.cross in *.
  cbn [Vec.x Vec.y Vec.z] in *. arith.
  apply Vec_eq; cbn [Vec.x Vec.y Vec.z].
  - transitivity (nx * (ux * ux + uy * uy + uz * uz)
                  - ux * (ux * nx + uy * ny + uz * nz)); [ring|].
    rewrite Huu, Huw. ring.
  - transitivity (ny * (ux * ux + uy * uy + uz * uz)
                  - uy * (ux * nx + uy * ny + uz * nz)); [ring|].
    rewrite Huu, Huw. ring.
  - transitivity (nz * (ux * ux + uy * uy + uz * uz)
                  - uz * (ux * nx + uy * ny + uz * nz)); [ring|].
    rewrite Huu, Huw. ring.
Qed.

Lemma createLocalCoord_orthonormal_witness :
  let '(u, v, w) := createLocalCoord (Vec.mk 0 0 1) in
  w = Vec.mk 0 0 1 /\ unit_length u /\ unit_length v /\
  Vec.dot u v = 0 /\ Vec.dot u w = 0 /\ Vec.dot v w = 0 /\
  Vec.cross u v = w.
Proof.
  apply (createLocalCoord_orthonormal (Vec.mk 0 0 1)).
  unfold unit_length, Vec.dot. simpl. lra.
Defined.
End VectorAlgebra.

(** ** Reflectance models *)

Section Reflectance.
Local Open Scope R_scope.

Lemma mirroredDirection_R (n o : Vec R) :
  mirroredDirection n o =
  Vec.mk (2 * Vec.dot n o * Vec.x n - Vec.x o)
         (2 * Vec.dot n o * Vec.y n - Vec.y o)
         (2 * Vec.dot n o * Vec.z n - Vec.z o).
Proof.
  unfold mirroredDirection, Vec.sub, Vec.scale. cbn [Vec.x Vec.y Vec.z].
  arith. replace (Q2R 2.0) with 2 by (literals; lra).
  apply Vec_eq; cbn [Vec.x Vec.y Vec.z]; ring.
Qed.

(** About a unit normal the mirror direction keeps the cosine. *)
Lemma mirror_cosine (n o : Vec R) :
  unit_length n -> Vec.dot n (mirroredDirection n o) = Vec.dot n o.
Proof.
  intros Hn. rewrite mirroredDirection_R.
  destruct n as [nx ny nz], o as [ox oy oz].
  unfold unit_length, Vec.dot in *. cbn [Vec.x Vec.y Vec.z] in *. arith.
  set (c := nx * ox + ny * oy + nz * oz).
  transitivity (2 * c * (nx * nx + ny * ny + nz * nz) - c); [unfold c; ring|].
  rewrite Hn. ring.
Qed.

(** X4.  Over the reals, about a unit normal, [mirroredDirection] keeps the
    cosine to the
    normal and the length of the direction, and mirroring twice gives the
    direction back. *)
Theorem mirroredDirection_reflects (n o : Vec R) :
  unit_length n ->
  Vec.dot n (mirroredDirection n o) = Vec.dot n o /\
  Vec.dot (mirroredDirection n o) (mirroredDirection n o) = Vec.dot o o /\
  mirroredDirection n (mirroredDirection n o) = o.
Proof.
  intros Hn. pose proof (mirror_cosine n o Hn) as Hc.
  split; [exact Hc|].
  rewrite (mirroredDirection_R n (mirroredDirection n o)), Hc.
  rewrite mirroredDirection_R.
  destruct n as [nx ny nz], o as [ox oy oz].
  unfold unit_length, Vec.dot in *. cbn [Vec.x Vec.y Vec.z] in *. arith.
  set (c := nx * ox + ny * oy + nz * oz). split.
  - transitivity (4 * c * c * (nx * nx + ny * ny + nz * nz) - 4 * c * c
                  + (ox * ox + oy * oy + oz * oz)); [unfold c; ring|].
    rewrite Hn. ring.
  - apply Vec_eq; cbn [Vec.x Vec.y Vec.z]; ring.
Qed.

Lemma mirroredDirection_reflects_witness :
  Vec.dot (Vec.mk 0 0 1) (mirroredDirection (Vec.mk 0 0 1) (Vec.mk 3 0 4))
  = Vec.dot (Vec.mk 0 0 1) (Vec.mk 3 0 4) /\
  Vec.dot (mirroredDirection (Vec.mk 0 0 1) (Vec.mk 3 0 4))
          (mirroredDirection (Vec.mk 0 0 1) (Vec.mk 3 0 4))
  = Vec.dot (Vec.mk 3 0 4) (Vec.mk 3 0 4) /\
  mirroredDirection (Vec.mk 0 0 1)
    (mirroredDirection (Vec.mk 0 0 1) (Vec.mk 3 0 4)) = Vec.mk 3 0 4.
Proof.
  apply (mirroredDirection_reflects (Vec.mk 0 0 1) (Vec.mk 3 0 4)).
  unfold unit_length, Vec.dot. simpl. lra.
Defined.

(** X5.  Over the reals the specular model gives back its colour: for a unit
    normal and an
    outgoing direction not tangent to the surface, [eval] at the sampled
    direction times [(n.i)/pdf] is [ks]. *)
Theorem SpecularBRDF_weight (ks n o : Vec R) (s : Rng R) :
  unit_length n -> Vec.dot n o <> 0 ->
  let '(i, pdf, _) := SpecularBRDF_sample ks n o s in
  Vec.scale (SpecularBRDF_eval ks n o i) (Vec.dot n i / pdf) = ks.
Proof.
  intros Hn Hno. unfold SpecularBRDF_sample, ret, SpecularBRDF_eval.
  pose proof (mirror_cosine n o Hn) as Hcos.
  assert (Heq : Vec.equal (mirroredDirection n o) (mirroredDirection n o) = true).
  { unfold Vec.equal. arith.
    rewrite !(proj2 (Reqb_true _ _) eq_refl). reflexivity. }
  rewrite Heq, Hcos. unfold Vec.scale. cbn [Vec.x Vec.y Vec.z]. arith.
  rewrite lit_1. destruct ks as [k1 k2 k3].
  apply Vec_eq; cbn [Vec.x Vec.y Vec.z]; field; assumption.
Qed.

Lemma SpecularBRDF_weight_witness :
  let '(i, pdf, _) :=
    SpecularBRDF_sample (Vec.mk 0.999 0.999 0.999) (Vec.mk 0 0 1) (Vec.mk 3 0 4)
      sample_stream in
  Vec.scale (SpecularBRDF_eval (Vec.mk 0.999 0.999 0.999) (Vec.mk 0 0 1)
               (Vec.mk 3 0 4) i)
            (Vec.dot (Vec.mk 0 0 1) i / pdf)
  = Vec.mk 0.999 0.999 0.999.
Proof.
  apply (SpecularBRDF_weight (Vec.mk 0.999 0.999 0.999) (Vec.mk 0 0 1)
           (Vec.mk 3 0 4) sample_stream).
  - unfold unit_length, Vec.dot. simpl. lra.
  - unfold Vec.dot. simpl. lra.
Defined.

(** What the diffuse sampler returns, for use below. *)
Lemma DiffuseBRDF_sample_shape (kd n o : Vec R) (s : Rng R) :
  unit_length n -> 0 <= s 0%nat < 1 ->
  let '(i, pdf, _) := DiffuseBRDF_sample kd n o s in
  unit_length i /\ Vec.dot n i = sqrt (s 0%nat) /\ pdf = sqrt (s 0%nat) / PI.
Proof.
  intros Hn Hu1.
  unfold DiffuseBRDF_sample, bind, rng, ret.
  pose proof (createLocalCoord_frame n Hn) as Hframe.
  destruct (createLocalCoord n) as [[u v] w].
  destruct Hframe as (-> & Huu & Hvv & Huv & Huw & Hvw).
  arith. rewrite lit_1.
  set (u1 := s 0%nat) in *. set (phi := Q2R 2.0 * PI * s 1%nat).
  set (z := sqrt u1). set (r := sqrt (1 - z * z)).
  assert (Hz : z * z = u1) by (apply sqrt_sqrt; lra).
  assert (Hr : r * r = 1 - z * z) by (apply sqrt_sqrt; lra).
  assert (Htrig : cos phi * cos phi + sin phi * sin phi = 1).
  { pose proof (sin2_cos2 phi) as Hsc. unfold Rsqr in Hsc. lra. }
  set (a := Vec.add (Vec.add (Vec.scale u (r * cos phi)) (Vec.scale v (r * sin phi)))
                    (Vec.scale n z)).
  assert (Ha : unit_length a).
  { unfold unit_length, a. rewrite dot_combination, Huu, Hvv, Huv, Huw, Hvw, Hn.
    transitivity (r * r * (cos phi * cos phi + sin phi * sin phi) + z * z); [ring|].
    rewrite Htrig, Hr. ring. }
  rewrite (normalize_unit a Ha).
  assert (Hna : Vec.dot n a = z).
  { unfold a. rewrite dot_combination_axis, Huw, Hvw, Hn. ring. }
  rewrite Hna. split; [exact Ha | split; reflexivity].
Qed.

(** X6.  Over the reals the diffuse model gives back its colour: for a unit
    normal and a
    first variate strictly between 0 and 1, [eval] at the sampled direction
    times [(n.i)/pdf] is [kd]. *)
Theorem DiffuseBRDF_weight (kd n o : Vec R) (s : Rng R) :
  unit_length n -> 0 < s 0%nat < 1 ->
  let '(i, pdf, _) := DiffuseBRDF_sample kd n o s in
  Vec.scale (DiffuseBRDF_eval kd n o i) (Vec.dot n i / pdf) = kd.
Proof.
  intros Hn Hu.
  assert (Hu' : 0 <= s 0%nat < 1) by lra.
  pose proof (DiffuseBRDF_sample_shape kd n o s Hn Hu') as Hshape.
  destruct (DiffuseBRDF_sample kd n o s) as [[i pdf] s'].
  destruct Hshape as (_ & Hcos & Hpdf).
  assert (Hpos : 0 < sqrt (s 0%nat)) by (apply sqrt_lt_R0; lra).
  pose proof PI_pos as HPI.
  rewrite Hpdf, Hcos. unfold DiffuseBRDF_eval, Vec.scale.
  cbn [Vec.x Vec.y Vec.z]. arith. rewrite lit_1.
  destruct kd as [k1 k2 k3].
  apply Vec_eq; cbn [Vec.x Vec.y Vec.z]; field; split; lra.
Qed.

Lemma DiffuseBRDF_weight_witness :
  let '(i, pdf, _) :=
    DiffuseBRDF_sample (Vec.mk 0.75 0.25 0.25) (Vec.mk 0 0 1) (Vec.mk 0 0 1)
      sample_stream in
  Vec.scale (DiffuseBRDF_eval (Vec.mk 0.75 0.25 0.25) (Vec.mk 0 0 1)
               (Vec.mk 0 0 1) i)
            (Vec.dot (Vec.mk 0 0 1) i / pdf)
  = Vec.mk 0.75 0.25 0.25.
Proof.
  apply (DiffuseBRDF_weight (Vec.mk 0.75 0.25 0.25) (Vec.mk 0 0 1) (Vec.mk 0 0 1)
           sample_stream).
  - unfold unit_length, Vec.dot. simpl. lra.
  - simpl. lra.
Defined.

(** X7.  Over the reals, whichever model the sphere has, for a unit normal
    that does not
    point away from a unit outgoing direction and a first variate in
    [[0,1)], the direction [sample] returns has unit length and does not
    point away from the normal. *)
Theorem sample_direction (brdf : BRDF R) (n o : Vec R) (s : Rng R) :
  unit_length n -> unit_length o -> 0 <= Vec.dot n o -> 0 <= s 0%nat < 1 ->
  let '(i, _, _) := sample brdf n o s in
  unit_length i /\ 0 <= Vec.dot n i.
Proof.
  intros Hn Ho Hno Hu. destruct brdf as [kd|ks]; cbn [sample].
  - pose proof (DiffuseBRDF_sample_shape kd n o s Hn Hu) as Hshape.
    destruct (DiffuseBRDF_sample kd n o s) as [[i pdf] s'].
    destruct Hshape as (Hi & Hcos & _). split; [exact Hi|].
    rewrite Hcos. apply sqrt_pos.
  - unfold SpecularBRDF_sample, ret. rewrite mirroredDirection_R.
    destruct n as [nx ny nz], o as [ox oy oz].
    unfold unit_length, Vec.dot in *. cbn [Vec.x Vec.y Vec.z] in *. arith.
    set (c := nx * ox + ny * oy + nz * oz) in *. split.
    + transitivity (4 * c * c * (nx * nx + ny * ny + nz * nz) - 4 * c * c
                    + (ox * ox + oy * oy + oz * oz)); [unfold c; ring|].
      rewrite Hn, Ho. ring.
    + replace (nx * (2 * c * nx - ox) + ny * (2 * c * ny - oy)
               + nz * (2 * c * nz - oz))
        with (2 * c * (nx * nx + ny * ny + nz * nz) - c) by (unfold c; ring).
      rewrite Hn. lra.
Qed.

Lemma sample_direction_witness :
  let '(i, _, _) :=
    sample (DiffuseBRDF (Vec.mk 0.75 0.25 0.25)) (Vec.mk 0 0 1) (Vec.mk 0 0 1)
      sample_stream in
  unit_length i /\ 0 <= Vec.dot (Vec.mk 0 0 1) i.
Proof.
  apply (sample_direction (DiffuseBRDF (Vec.mk 0.75 0.25 0.25)) (Vec.mk 0 0 1)
           (Vec.mk 0 0 1) sample_stream).
  - unfold unit_length, Vec.dot. simpl. lra.
  - unfold unit_length, Vec.dot. simpl. lra.
  - unfold Vec.dot. simpl. lra.
  - simpl. lra.
Defined.
End Reflectance.

(** ** Light sampling *)

Section LightSampling.
Local Open Scope R_scope.

(** X8.  Over the reals, for a first variate in [[0,1]] and a sphere of
    positive radius,
    the normal returned by [luminaireSample] has unit length, the point
    returned lies on the sphere, and the density times the area
    [4 PI rad^2] is 1. *)
Theorem luminaireSample_on_sphere (obj : Sphere R) (s : Rng R) :
  0 <= s 0%nat <= 1 -> 0 < Sphere.rad obj ->
  let '(p, n, pdf, _) := luminaireSample obj s in
  unit_length n /\
  Vec.dot (Vec.sub p (Sphere.p obj)) (Vec.sub p (Sphere.p obj))
  = Sphere.rad obj * Sphere.rad obj /\
  pdf * (4 * PI * Sphere.rad obj * Sphere.rad obj) = 1.
Proof.
  intros Hu Hrad. unfold luminaireSample, bind, ret, rng. cbv zeta.
  set (z := (#2 * s 0%nat - #1)%fl).
  set (phi := (#2 * PI * s 1%nat)%fl).
  set (rho := fsqrt (#1 - z * z)%fl).
  assert (Hz : -1 <= z <= 1).
  { unfold z. arith. literals. lra. }
  assert (Hrho : rho * rho = 1 - z * z).
  { unfold rho. arith. replace (Q2R 1) with 1 by (literals; lra).
    apply sqrt_sqrt. nra. }
  assert (Htrig : cos phi * cos phi + sin phi * sin phi = 1).
  { pose proof (sin2_cos2 phi) as Hsc. unfold Rsqr in Hsc. lra. }
  assert (Hn : (rho * cos phi) * (rho * cos phi) + (rho * sin phi) * (rho * sin phi)
               + z * z = 1).
  { transitivity (rho * rho * (cos phi * cos phi + sin phi * sin phi) + z * z);
      [ring|]. rewrite Htrig, Hrho. ring. }
  pose proof PI_pos as HPI.
  split; [|split].
  - unfold unit_length, Vec.dot. cbn [Vec.x Vec.y Vec.z]. arith. exact Hn.
  - components.
    transitivity (Sphere.rad obj * Sphere.rad obj *
                  ((rho * cos phi) * (rho * cos phi)
                   + (rho * sin phi) * (rho * sin phi) + z * z)); [ring|].
    rewrite Hn. ring.
  - arith. replace (Q2R 1) with 1 by (literals; lra).
    replace (Q2R 4) with 4 by (literals; lra).
    field. split; lra.
Qed.

Lemma luminaireSample_on_sphere_witness :
  let '(p, n, pdf, _) := luminaireSample (sphere_at 7) sample_stream in
  unit_length n /\
  Vec.dot (Vec.sub p (Sphere.p (sphere_at 7))) (Vec.sub p (Sphere.p (sphere_at 7)))
  = Sphere.rad (sphere_at 7) * Sphere.rad (sphere_at 7) /\
  pdf * (4 * PI * Sphere.rad (sphere_at 7) * Sphere.rad (sphere_at 7)) = 1.
Proof.
  apply (luminaireSample_on_sphere (sphere_at 7) sample_stream).
  - simpl. lra.
  - unfold sphere_at. simpl. arith. literals. lra.
Defined.
End LightSampling.

(** ** Intersection *)

Section IntersectionFurther.
Local Open Scope R_scope.

(** X9.  Whatever the sphere and the ray, [Sphere::intersect] returns 0 or a
    distance beyond [eps = 1e-4]: never a negative distance, never one
    within [eps] of the origin of the ray. *)
Theorem Sphere_intersect_beyond_eps (s : Sphere R) (r : Ray R) :
  Sphere.intersect s r = 0 \/ 1e-4 < Sphere.intersect s r.
Proof.
  pose proof (Sphere_intersect_cases s r) as Hcases. cbv zeta in Hcases.
  destruct Hcases
    as [[_ ->] | [(_ & H1 & ->) | [(_ & _ & H2 & ->) | (_ & _ & ->)]]];
    [left | right | right | left]; trivial.
Qed.

(** X10.  Over the reals, a ray of unit direction aimed at the centre of a
    sphere, from a
    point more than [eps] outside it, is reported the distance to the centre
    less the radius. *)
Theorem Sphere_intersect_toward_centre (s : Sphere R) (r : Ray R) (D : R) :
  unit_length (Ray.d r) ->
  Vec.sub (Sphere.p s) (Ray.o r) = Vec.scale (Ray.d r) D ->
  0 <= Sphere.rad s -> 1e-4 < D - Sphere.rad s ->
  Sphere.intersect s r = D - Sphere.rad s.
Proof.
  intros Hunit Hop Hrad Hout.
  pose proof (Sphere_intersect_cases s r) as Hcases. cbv zeta in Hcases.
  rewrite Hop in Hcases.
  assert (Hb : Vec.dot (Vec.scale (Ray.d r) D) (Ray.d r) = D).
  { transitivity (D * Vec.dot (Ray.d r) (Ray.d r)); [components; ring|].
    rewrite Hunit. ring. }
  assert (Hoo : Vec.dot (Vec.scale (Ray.d r) D) (Vec.scale (Ray.d r) D) = D * D).
  { transitivity (D * D * Vec.dot (Ray.d r) (Ray.d r)); [components; ring|].
    rewrite Hunit. ring. }
  rewrite Hb, Hoo in Hcases.
  replace (D * D - D * D + Sphere.rad s * Sphere.rad s)
    with (Sphere.rad s * Sphere.rad s) in Hcases by ring.
  rewrite (sqrt_square _ Hrad) in Hcases.
  destruct Hcases as [[Hneg _] | [(_ & _ & ->) | [(_ & H1 & _) | (_ & H2 & _)]]];
    [nra | reflexivity | lra | lra].
Qed.

Lemma Sphere_intersect_toward_centre_witness :
  Sphere.intersect (sphere_at 5) unit_ray = 66 - Sphere.rad (sphere_at 5).
Proof.
  apply (Sphere_intersect_toward_centre (sphere_at 5) unit_ray 66).
  - unfold unit_length, Vec.dot. simpl. lra.
  - unfold sphere_at, unit_ray, Vec.sub, Vec.scale. simpl. arith. literals.
    apply Vec_eq; simpl; lra.
  - unfold sphere_at. simpl. arith. literals. lra.
  - unfold sphere_at. simpl. arith. literals. lra.
Defined.

(** X11.  Over the reals, a sphere that the ray leaves behind is not hit:
    when the centre
    is not ahead of the origin ([(p-o).d <= 0]) and the origin is not inside
    the sphere, [Sphere::intersect] returns 0, whatever the length of the
    direction. *)
Theorem Sphere_intersect_behind (s : Sphere R) (r : Ray R) :
  let op := Vec.sub (Sphere.p s) (Ray.o r) in
  Vec.dot op (Ray.d r) <= 0 ->
  Sphere.rad s * Sphere.rad s <= Vec.dot op op ->
  Sphere.intersect s r = 0.
Proof.
  intros op Hb Hout. now apply Sphere_intersect_left_behind.
Qed.

Lemma Sphere_intersect_behind_witness :
  Sphere.intersect (sphere_at 5) back_ray = 0.
Proof.
  apply (Sphere_intersect_behind (sphere_at 5) back_ray).
  - unfold sphere_at, back_ray, Vec.dot, Vec.sub. simpl. arith. literals. lra.
  - unfold sphere_at, back_ray, Vec.dot, Vec.sub. simpl. arith. literals. lra.
Defined.

(** The scan of [intersect] keeps the first sphere that reaches the least
    distance: every sphere scanned before [id] is strictly farther. *)
Lemma intersect_loop_first (r : Ray R) (i : nat) : forall t0 id0,
  let '(t, id) := intersect_loop i r t0 id0 in
  (t = t0 /\ id = id0) \/
  (t < t0 /\ (id < i)%nat /\ t = distance_to r id /\
   forall j, (id < j < i)%nat -> distance_to r j = 0 \/ t < distance_to r j).
Proof.
  induction i as [|i IH]; intros t0 id0.
  - simpl. left. auto.
  - cbn [intersect_loop]. fold (distance_to r i). arith.
    destruct (Reqb (distance_to r i) (Q2R 0)) eqn:Hz; cbn [negb andb].
    + apply Reqb_true in Hz. literals_in Hz.
      specialize (IH t0 id0). destruct (intersect_loop i r t0 id0) as [t id].
      destruct IH as [?|(Hlt & Hid & Ht & Hfar)]; [left; assumption|].
      right. repeat split; auto. intros j Hj.
      destruct (Nat.eq_dec j i) as [->|]; [left; lra | apply Hfar; lia].
    + apply Reqb_false in Hz.
      destruct (Rltb (distance_to r i) t0) eqn:Hlt.
      * apply Rltb_true in Hlt.
        specialize (IH (distance_to r i) i).
        destruct (intersect_loop i r (distance_to r i) i) as [t id].
        right. destruct IH as [[-> ->]|(Hlt' & Hid & Ht & Hfar)].
        -- repeat split; auto. intros j Hj. lia.
        -- repeat split; auto; [lra|]. intros j Hj.
           destruct (Nat.eq_dec j i) as [->|]; [right; lra | apply Hfar; lia].
      * apply Rltb_false in Hlt.
        specialize (IH t0 id0). destruct (intersect_loop i r t0 id0) as [t id].
        destruct IH as [?|(Hlt' & Hid & Ht & Hfar)]; [left; assumption|].
        right. repeat split; auto. intros j Hj.
        destruct (Nat.eq_dec j i) as [->|]; [right; lra | apply Hfar; lia].
Qed.

(** X12.  On a miss [intersect] leaves [t] at 1e20 and [id] at the value the
    caller gave.  On a hit [t] is the distance of the sphere [id], and every
    sphere of larger index is missed or strictly farther: of the spheres at
    the least distance the one of largest index is reported. *)
Theorem intersect_miss_and_ties (r : Ray R) (id0 : nat) :
  let '(hit, t, id) := intersect r id0 in
  (hit = false /\ t = 1e20 /\ id = id0) \/
  (hit = true /\ t < 1e20 /\ (id < 8)%nat /\ t = distance_to r id /\
   forall j, (id < j < 8)%nat -> distance_to r j = 0 \/ t < distance_to r j).
Proof.
  unfold intersect. change (List.length spheres) with 8%nat.
  pose proof (intersect_loop_first r 8 (lit 1e20) id0) as Hscan.
  destruct (intersect_loop 8 r (lit 1e20) id0) as [t id]. arith.
  replace (Q2R 1e20) with 1e20 in * by (literals; lra).
  destruct Hscan as [[-> ->]|(Hlt & Hid & Ht & Hfar)].
  - left. split; [apply Rltb_false; lra | auto].
  - right. split; [now apply Rltb_true | auto].
Qed.

(** A distance reported with a hit is below 1e20. *)
Lemma intersect_hit_below (r : Ray R) (id0 : nat) (t : R) (id : nat) :
  intersect r id0 = (true, t, id) -> t < 1e20.
Proof.
  unfold intersect. destruct (intersect_loop _ r _ id0) as [t' id']. arith.
  intros [= Hlt <- <-]. apply Rltb_true in Hlt. literals_in Hlt. lra.
Qed.

(** X13.  Over the reals, for a ray of unit direction that hits, the
    distance reported lies
    between [eps] and 1e20 and the point of the ray at that distance lies on
    the surface of the sphere reported. *)
Theorem intersect_point_on_sphere (r : Ray R) (id0 : nat) :
  unit_length (Ray.d r) ->
  let '(hit, t, id) := intersect r id0 in
  hit = false \/
  (hit = true /\ (id < 8)%nat /\ 1e-4 < t < 1e20 /\
   let x := Vec.add (Ray.o r) (Vec.scale (Ray.d r) t) in
   let obj := sphere_at id in
   Vec.dot (Vec.sub x (Sphere.p obj)) (Vec.sub x (Sphere.p obj))
   = Sphere.rad obj * Sphere.rad obj).
Proof.
  intros Hunit.
  pose proof (intersect_nearest_hit r id0) as Hnh.
  pose proof (intersect_hit_below r id0) as Hbelow.
  destruct (intersect r id0) as [[hit t] id].
  destruct hit; [right | left; reflexivity].
  destruct Hnh as [_ Hhit]. destruct (Hhit eq_refl) as (Hid & Ht & Hpos & _).
  pose proof (Hbelow t id eq_refl) as Hlt.
  pose proof (Sphere_intersect_nearest_root (sphere_at id) r Hunit) as Hroot.
  fold (distance_to r id) in Hroot. rewrite <- Ht in Hroot.
  destruct Hroot as [(Hq & Heps & _) | (_ & Hzero)]; [|lra].
  split; [reflexivity|]. split; [exact Hid|]. split; [lra|]. cbv zeta.
  unfold quadratic in Hq. cbv zeta in Hq.
  transitivity (t * t * Vec.dot (Ray.d r) (Ray.d r)
                + 2 * t * Vec.dot (Vec.sub (Ray.o r) (Sphere.p (sphere_at id))) (Ray.d r)
                + Vec.dot (Vec.sub (Ray.o r) (Sphere.p (sphere_at id)))
                          (Vec.sub (Ray.o r) (Sphere.p (sphere_at id)))).
  - components. ring.
  - lra.
Qed.

Lemma intersect_point_on_sphere_witness :
  let '(hit, t, id) := intersect unit_ray 0 in
  hit = false \/
  (hit = true /\ (id < 8)%nat /\ 1e-4 < t < 1e20 /\
   let x := Vec.add (Ray.o unit_ray) (Vec.scale (Ray.d unit_ray) t) in
   let obj := sphere_at id in
   Vec.dot (Vec.sub x (Sphere.p obj)) (Vec.sub x (Sphere.p obj))
   = Sphere.rad obj * Sphere.rad obj).
Proof.
  apply (intersect_point_on_sphere unit_ray 0).
  unfold unit_length, Vec.dot. simpl. lra.
Defined.

(** X14.  Over the reals, at a point that is not the centre of the sphere,
    the normal the
    reflected terms use has unit length and does not point away from the
    outgoing direction. *)
Theorem facing_normal_faces (x o : Vec R) (obj : Sphere R) :
  0 < Vec.dot (Vec.sub x (Sphere.p obj)) (Vec.sub x (Sphere.p obj)) ->
  unit_length (facing_normal x o obj) /\
  0 <= Vec.dot (facing_normal x o obj) o.
Proof.
  intros Hx. unfold facing_normal. cbv zeta.
  pose proof (normalize_unit_length _ Hx) as Hn.
  set (n := Vec.normalize _) in *. arith.
  replace (Q2R 0) with 0 by (literals; lra).
  replace (Q2R (-1.0)) with (-1) by (literals; lra).
  destruct (Rltb (Vec.dot n o) 0) eqn:Hside.
  - apply Rltb_true in Hside. split.
    + unfold unit_length in *.
      transitivity (Vec.dot n n); [components; ring | exact Hn].
    + replace (Vec.dot (Vec.scale n (-1)) o) with (- Vec.dot n o)
        by (components; ring).
      lra.
  - apply Rltb_false in Hside. split; assumption.
Qed.

Lemma facing_normal_faces_witness :
  unit_length (facing_normal (Vec.mk 27 16.5 30.5) (Vec.mk 0 0 1) (sphere_at 5)) /\
  0 <= Vec.dot (facing_normal (Vec.mk 27 16.5 30.5) (Vec.mk 0 0 1) (sphere_at 5))
               (Vec.mk 0 0 1).
Proof.
  apply (facing_normal_faces (Vec.mk 27 16.5 30.5) (Vec.mk 0 0 1) (sphere_at 5)).
  unfold sphere_at, Vec.dot, Vec.sub. simpl. arith. literals. lra.
Defined.
End IntersectionFurther.

(** ** Pixel encoding and output *)

Section PixelFurther.
Local Open Scope R_scope.

Lemma clamp_le (x y : R) : x <= y -> clamp x <= clamp y.
Proof.
  intros Hxy. rewrite !clamp_cases.
  destruct (Rlt_dec x 0), (Rlt_dec y 0); try lra;
    destruct (Rlt_dec 1 x), (Rlt_dec 1 y); lra.
Qed.

(** X15.  [clamp] is monotone, lands in [[0,1]] and changes nothing
    there, so that clamping twice is clamping once. *)
Theorem clamp_monotone (x y : R) :
  x <= y ->
  clamp x <= clamp y /\ 0 <= clamp x <= 1 /\ clamp (clamp x) = clamp x.
Proof.
  intros Hxy. split; [|split; [apply clamp_range|]].
  - now apply clamp_le.
  - pose proof (clamp_range x) as Hr. rewrite (clamp_cases (clamp x)).
    destruct (Rlt_dec (clamp x) 0); [lra|].
    destruct (Rlt_dec 1 (clamp x)); [lra | reflexivity].
Qed.

Lemma clamp_monotone_witness :
  clamp (-1) <= clamp 2 /\ 0 <= clamp (-1) <= 1 /\ clamp (clamp (-1)) = clamp (-1).
Proof.
  apply (clamp_monotone (-1) 2). lra.
Defined.

Lemma Rpow_monotone (c c' b : R) :
  0 <= c <= c' -> c' <= 1 -> 0 < b -> Rpow c b <= Rpow c' b.
Proof.
  intros Hc Hc' Hb.
  destruct (Req_dec_T c 0) as [Hz|Hnz].
  - assert (Hzero : Rpow c b = 0).
    { unfold Rpow. destruct (Req_dec_T c 0); [|contradiction].
      destruct (Req_dec_T b 0); [lra | reflexivity]. }
    rewrite Hzero. apply Rpow_range; lra.
  - unfold Rpow. destruct (Req_dec_T c 0); [contradiction|].
    destruct (Req_dec_T c' 0); [lra|].
    apply Rle_Rpower_l; lra.
Qed.

(** X16.  [toInt] is monotone: a brighter channel is never written as a
    smaller number. *)
Theorem toInt_monotone (x y : R) : x <= y -> (toInt x <= toInt y)%Z.
Proof.
  intros Hxy.
  destruct (toInt_value x) as [_ Hx]. destruct (toInt_value y) as [_ Hy].
  cbv zeta in Hx, Hy.
  pose proof (clamp_le x y Hxy) as Hc.
  pose proof (clamp_range x) as Hrx. pose proof (clamp_range y) as Hry.
  assert (Hb : 0 < 1 / 2.2) by lra.
  pose proof (Rpow_monotone (clamp x) (clamp y) (1 / 2.2)
                (conj (proj1 Hrx) Hc) (proj2 Hry) Hb) as Hpow.
  assert (Hlt : IZR (toInt x) < IZR (toInt y + 1)).
  { rewrite plus_IZR. lra. }
  apply lt_IZR in Hlt. lia.
Qed.

Lemma toInt_monotone_witness : (toInt (1 / 4)%R <= toInt (1 / 2)%R)%Z.
Proof.
  apply (toInt_monotone (1 / 4) (1 / 2)). lra.
Defined.

(** X17.  [toInt] saturates: every value that is not positive is written
    as 0 and every value from 1 upward as 255. *)
Theorem toInt_saturates (x : R) :
  toInt (Rmin x 0) = 0%Z /\ toInt (Rmax x 1) = 255%Z.
Proof.
  split.
  - apply toInt_low. apply Rmin_r.
  - apply toInt_high. apply Rmax_r.
Qed.
End PixelFurther.

(** ** The rendering loops *)

Section Rendering.
Context {F : Type} `{Arith F}.
Variable ord : Order.

(** The body of the sample loop, with the two offsets named. *)
Lemma one_sample_tent fuel (w h samps : Z) (cx cy : Vec F) (x y sx sy : Z)
  (r : Vec F) (s : Rng F) :
  one_sample ord fuel w h samps cx cy x y sx sy r s =
  (let dx := tent (lit 2 * s 0%nat)%fl in
   let dy := tent (lit 2 * s 1%nat)%fl in
   let d :=
     Vec.add
       (Vec.add
          (Vec.scale cx
             (((of_int sx + lit 0.5 + dx) / lit 2 + of_int x) / of_int w - lit 0.5)%fl)
          (Vec.scale cy
             (((of_int sy + lit 0.5 + dy) / lit 2 + of_int y) / of_int h - lit 0.5)%fl))
       (Ray.d cam) in
   match receivedRadiance ord fuel (Ray.mk (Ray.o cam) (Vec.normalize d)) 1 true
           (fun k => s (S (S k))) with
   | Some (L, s') => Some (Vec.add r (Vec.scale L (lit 1.0 / of_int samps)%fl), s')
   | None => None
   end).
Proof. reflexivity. Qed.

(** X18.  Whatever the arithmetic, the arguments and the variates, every
    run of [main] that ends has written the header ([P3], 480 and 360, 255)
    and then, for each of the 480 * 360 pixels, [toInt] of its three
    channels in decimal, each followed by a space: 518400 numbers. *)
Theorem main_image_size fuel (argv : list string) (s s' : Rng F)
  (out : Outcome) :
  main ord fuel argv s = Some (out, s') ->
  exists c : list (Vec F),
    let channels :=
      flat_map (fun v => [toInt (Vec.x v); toInt (Vec.y v); toInt (Vec.z v)])
        c in
    Z.of_nat (List.length c) = 172800%Z /\
    Z.of_nat (List.length channels) = 518400%Z /\
    image_ppm out
    = ("P3" ++ String "010" "" ++ "480 360" ++ String "010" "" ++ "255"
       ++ String "010" ""
       ++ String.concat ""
            (map (fun n => NilZero.string_of_int (Z.to_int n) ++ " ")
               channels))%string.
Proof.
  intros Hmain.
  destruct (main_text ord fuel argv s s' out Hmain) as (c & _ & Hlen & ->).
  exists c. cbv zeta. split; [exact Hlen|]. split.
  - assert (Hflat : forall l : list (Vec F),
               List.length
                 (flat_map
                    (fun v => [toInt (Vec.x v); toInt (Vec.y v); toInt (Vec.z v)])
                    l)
               = (3 * List.length l)%nat).
    { induction l as [|v l IH]; [reflexivity|].
      cbn [flat_map List.length app]. rewrite IH. lia. }
    rewrite Hflat. lia.
  - cbn [image_ppm]. apply ppm_text.
Qed.
End Rendering.

Section RenderingExact.
Local Open Scope R_scope.

Lemma main_image_size_witness :
  exists out (c : list (Vec R)),
    main DirectFirst 0 ["simplept"; "0"]%string sample_stream
    = Some (out, sample_stream) /\
    Z.of_nat (List.length c) = 172800%Z /\
    Z.of_nat
      (List.length
         (flat_map (fun v => [toInt (Vec.x v); toInt (Vec.y v); toInt (Vec.z v)])
            c)) = 518400%Z /\
    image_ppm out
    = ("P3" ++ String "010" "" ++ "480 360" ++ String "010" "" ++ "255"
       ++ String "010" ""
       ++ String.concat ""
            (map (fun n => NilZero.string_of_int (Z.to_int n) ++ " ")
               (flat_map
                  (fun v => [toInt (Vec.x v); toInt (Vec.y v); toInt (Vec.z v)])
                  c)))%string.
Proof.
  destruct (main_no_samples DirectFirst 0 ["simplept"; "0"]%string sample_stream)
    as (out & Hrun & _).
  { vm_compute. intros Hgt. discriminate Hgt. }
  exists out.
  destruct (main_image_size DirectFirst 0 ["simplept"; "0"]%string
              sample_stream sample_stream out Hrun) as (c & Hc).
  exists c. split; [exact Hrun | exact Hc].
Defined.

(** X19.  The offset of a sample inside its subpixel lies in [[-1, 1)] for
    a variate in [[0,1)], is negative for a variate below 1/2 and is not
    negative from 1/2 on. *)
Theorem tent_range (u : R) :
  0 <= u < 1 ->
  -1 <= tent (2 * u) < 1 /\
  (if Rlt_dec u (1 / 2) then tent (2 * u) < 0 else 0 <= tent (2 * u)).
Proof.
  intros Hu. unfold tent. arith.
  replace (Q2R 1) with 1 by (literals; lra).
  replace (Q2R 2) with 2 by (literals; lra).
  rewrite Rltb_dec. destruct (Rlt_dec (2 * u) 1) as [Hlow|Hhigh].
  - assert (Hs : 0 <= sqrt (2 * u) < 1).
    { split; [apply sqrt_pos|].
      apply Rlt_le_trans with (sqrt 1); [apply sqrt_lt_1_alt; lra|].
      rewrite sqrt_1. lra. }
    destruct (Rlt_dec u (1 / 2)); lra.
  - assert (Hs : 0 < sqrt (2 - 2 * u) <= 1).
    { split; [apply sqrt_lt_R0; lra|].
      apply Rle_trans with (sqrt 1); [apply sqrt_le_1_alt; lra|].
      rewrite sqrt_1. lra. }
    destruct (Rlt_dec u (1 / 2)); lra.
Qed.

Lemma tent_range_witness :
  -1 <= tent (2 * (1 / 4)) < 1 /\
  (if Rlt_dec (1 / 4) (1 / 2) then tent (2 * (1 / 4)) < 0
   else 0 <= tent (2 * (1 / 4))).
Proof.
  apply (tent_range (1 / 4)). lra.
Defined.

End RenderingExact.

(** ** The estimator *)

Section EstimatorFurther.
Local Open Scope R_scope.
Variable ord : Order.

Lemma eval_black (n o i : Vec R) :
  eval (DiffuseBRDF (Vec.mk 0 0 0)) n o i = Vec.mk 0 0 0.
Proof.
  cbn [eval]. unfold DiffuseBRDF_eval. components.
  apply Vec_eq; cbn [Vec.x Vec.y Vec.z]; ring.
Qed.

Lemma mult_black (L : Vec R) (a b : R) :
  Vec.scale (Vec.scale (Vec.mult L (Vec.mk 0 0 0)) a) b = Vec.mk 0 0 0.
Proof. components. apply Vec_eq; cbn [Vec.x Vec.y Vec.z]; ring. Qed.

(** With every variate above 0.9 a path beyond depth 5 is cut at its next
    surface: three nested calls are enough for the estimate. *)
Lemma receivedRadiance_cut (r : Ray R) (depth : Z) (flag : bool) (s : Rng R) :
  (5 < depth)%Z -> (forall k, 0.9 < s k) ->
  exists v s', receivedRadiance ord 3 r depth flag s = Some (v, s').
Proof.
  intros Hdepth Hs.
  assert (Hcut : forall x o obj s0, (forall k, 0.9 < s0 k) ->
             indirectedRadiance ord 1 x o obj depth flag s0
             = Some (Vec.zero, fun k => s0 (S k))).
  { intros x o obj s0 Hs0. rewrite indirectedRadiance_S. cbv zeta. unfold rng.
    replace (depth <=? 5)%Z with false by (symmetry; apply Z.leb_gt; lia).
    arith. replace (Q2R 0.9) with 0.9 by (literals; lra).
    rewrite (proj2 (Rltb_true _ _) (Hs0 0%nat)). reflexivity. }
  rewrite receivedRadiance_S. destruct (intersect r 0) as [[hit t] id].
  destruct hit; [|eauto]. cbv zeta.
  rewrite reflectedRadiance_S. destruct ord.
  - pose proof (directedRadiance_draws
                  (Vec.add (Ray.o r) (Vec.scale (Ray.d r) t))
                  (Vec.normalize (Vec.sub Vec.zero (Ray.d r)))
                  (sphere_at id) flag s) as Hstream.
    destruct (directedRadiance _ _ _ _ s) as [a s1]. cbn [snd] in Hstream.
    subst s1. rewrite Hcut by (intros k; apply Hs). eauto.
  - rewrite Hcut by exact Hs.
    destruct (directedRadiance _ _ _ _ _) as [a s2]. eauto.
Qed.

(** X21.  Over the reals, where a product with 0 is 0 whatever the other
    factor, a sphere whose reflectance is 0, as the light is, reflects
    nothing: whenever [reflectedRadiance] returns at such a sphere it
    returns the zero colour, in either order of evaluation. *)
Theorem reflectedRadiance_black fuel (x o : Vec R) (obj : Sphere R)
  (depth : Z) (flag : bool) (s s' : Rng R) (v : Vec R) :
  Sphere.brdf obj = DiffuseBRDF (Vec.mk 0 0 0) ->
  reflectedRadiance ord fuel x o obj depth flag s = Some (v, s') ->
  v = Vec.mk 0 0 0.
Proof.
  intros Hblack Hrun.
  assert (Hdirect : forall s0, fst (directedRadiance x o obj flag s0) = Vec.mk 0 0 0).
  { intros s0. pose proof (directedRadiance_R x o obj flag s0) as Hd.
    destruct (luminaireSample (sphere_at 7) s0) as [[[x_l n_l] pdf_l] s1].
    cbv zeta in Hd. destruct (intersect _ 0) as [[hit t] id].
    rewrite Hd. destruct (Rlt_dec _ _); [|reflexivity].
    cbn [fst]. rewrite Hblack, eval_black. components.
    apply Vec_eq; cbn [Vec.x Vec.y Vec.z]; ring. }
  assert (Hindirect : forall f s0 s1 b,
             indirectedRadiance ord f x o obj depth flag s0 = Some (b, s1) ->
             b = Vec.mk 0 0 0).
  { intros [|f] s0 s1 b Hb; [discriminate|].
    rewrite indirectedRadiance_S in Hb. cbv zeta in Hb.
    destruct (rng s0) as [u s2]. destruct (ltb _ u).
    - injection Hb as <- _. apply Vec_zero_R.
    - destruct (sample _ _ _ _) as [[i pdf] s3].
      destruct (receivedRadiance _ _ _ _ _ _) as [[L s4]|]; [|discriminate].
      injection Hb as <- _. rewrite Hblack, eval_black. apply mult_black. }
  destruct fuel as [|fuel]; [discriminate|].
  rewrite reflectedRadiance_S in Hrun. destruct ord.
  - specialize (Hdirect s). destruct (directedRadiance x o obj flag s) as [a s1].
    cbn [fst] in Hdirect. subst a.
    destruct (indirectedRadiance _ _ _ _ _ _ _ s1) as [[b s2]|] eqn:Hb;
      [|discriminate].
    apply Hindirect in Hb. subst b. injection Hrun as <- _.
    components. apply Vec_eq; cbn [Vec.x Vec.y Vec.z]; ring.
  - destruct (indirectedRadiance _ _ _ _ _ _ _ s) as [[b s1]|] eqn:Hb;
      [|discriminate].
    apply Hindirect in Hb. subst b.
    specialize (Hdirect s1). destruct (directedRadiance x o obj flag s1) as [a s2].
    cbn [fst] in Hdirect. subst a. injection Hrun as <- _.
    components. apply Vec_eq; cbn [Vec.x Vec.y Vec.z]; ring.
Qed.

(** X22.  Over the reals, at a diffuse sphere the weight of the bounce is the
    colour of the sphere over the survival probability: when the path is not
    cut and the
    variate of the polar angle is strictly between 0 and 1, the indirect
    term is the radiance received along the bounce ray times [kd / p]. *)
Theorem indirectedRadiance_diffuse fuel (x o : Vec R) (obj : Sphere R)
  (kd : Vec R) (depth : Z) (flag : bool) (s : Rng R) :
  Sphere.brdf obj = DiffuseBRDF kd ->
  0 < Vec.dot (Vec.sub x (Sphere.p obj)) (Vec.sub x (Sphere.p obj)) ->
  s 0%nat <= survival depth -> 0 < s 1%nat < 1 ->
  let n := facing_normal x o obj in
  let '(i, _, s2) := DiffuseBRDF_sample kd n o (fun k => s (S k)) in
  indirectedRadiance ord (S fuel) x o obj depth flag s =
  match receivedRadiance ord fuel (Ray.mk x i) (depth + 1) flag s2 with
  | Some (L, s3) => Some (Vec.scale (Vec.mult L kd) (1 / survival depth), s3)
  | None => None
  end.
Proof.
  intros Hkd Hx Hlive Hu n.
  assert (Hn : unit_length n).
  { unfold n, facing_normal. cbv zeta.
    pose proof (normalize_unit_length _ Hx) as Hunit.
    destruct (ltb _ _); [|exact Hunit].
    unfold unit_length in *. rewrite <- Hunit. arith.
    replace (Q2R (-1.0)) with (-1) by (literals; lra). components. ring. }
  pose proof (indirectedRadiance_S ord fuel x o obj depth flag s) as Hstep.
  cbv zeta in Hstep. unfold rng in Hstep. fold n in Hstep.
  rewrite Hkd in Hstep. cbn [sample eval] in Hstep.
  assert (Hu' : 0 <= (fun k => s (S k)) 0%nat < 1) by (cbv beta; lra).
  pose proof (DiffuseBRDF_sample_shape kd n o (fun k => s (S k)) Hn Hu') as Hshape.
  destruct (DiffuseBRDF_sample kd n o (fun k => s (S k))) as [[i pdf] s2].
  destruct Hshape as (_ & Hcos & Hpdf). cbv beta in Hcos, Hpdf.
  rewrite Hstep. arith.
  assert (Hp : (if (depth <=? 5)%Z then Q2R 1.0 else Q2R 0.9) = survival depth).
  { unfold survival. destruct (depth <=? 5)%Z; literals; lra. }
  rewrite Hp. rewrite (proj2 (Rltb_false _ _) Hlive).
  destruct (receivedRadiance _ _ _ _ _ _) as [[L s3]|]; [|reflexivity].
  do 2 f_equal.
  assert (Hz : 0 < sqrt (s 1%nat)) by (apply sqrt_lt_R0; lra).
  assert (Hsp : 0 < survival depth).
  { unfold survival. destruct (depth <=? 5)%Z; lra. }
  pose proof PI_pos as HPI.
  rewrite Hcos, Hpdf. unfold DiffuseBRDF_eval. components.
  replace (Q2R 1) with 1 by (literals; lra). rewrite lit_1.
  apply Vec_eq; cbn [Vec.x Vec.y Vec.z]; field; repeat split; lra.
Qed.
End EstimatorFurther.

Section EstimatorFurtherWitness.
Local Open Scope R_scope.

(** At depth 6 a variate of 0.95 cuts the path: the run at the light ends
    within two nested calls. *)
Lemma reflectedRadiance_black_witness :
  exists v s',
    reflectedRadiance DirectFirst 2 (Vec.mk 50 65 81.6) (Vec.mk 0 (-1) 0)
      (sphere_at 7) 6 true high_stream = Some (v, s') /\
    v = Vec.mk 0 0 0.
Proof.
  destruct (reflectedRadiance DirectFirst 2 (Vec.mk 50 65 81.6) (Vec.mk 0 (-1) 0)
              (sphere_at 7) 6 true high_stream) as [[v s']|] eqn:Hrun.
  - exists v, s'. split; [reflexivity|].
    apply (reflectedRadiance_black DirectFirst 2 (Vec.mk 50 65 81.6)
             (Vec.mk 0 (-1) 0) (sphere_at 7) 6 true high_stream s' v);
      [|exact Hrun].
    unfold sphere_at. simpl. unfold blackSurf. f_equal. arith.
    apply Vec_eq; cbn [Vec.x Vec.y Vec.z]; literals; lra.
  - exfalso. rewrite reflectedRadiance_S in Hrun.
    pose proof (directedRadiance_R (Vec.mk 50 65 81.6) (Vec.mk 0 (-1) 0)
                  (sphere_at 7) true high_stream) as Hd.
    unfold luminaireSample, bind, ret, rng in Hd. cbv zeta in Hd.
    destruct (intersect _ 0) as [[hit t] id].
    rewrite Hd in Hrun.
    destruct (Rlt_dec _ _); cbv beta iota in Hrun;
      rewrite indirectedRadiance_S in Hrun; cbv zeta in Hrun;
      unfold rng, high_stream in Hrun; arith;
      change (6 <=? 5)%Z with false in Hrun; cbv iota in Hrun;
      replace (Q2R 0.9) with 0.9 in Hrun by (literals; lra);
      (assert (Hcut : Rltb 0.9 0.95 = true) by (apply Rltb_true; lra));
      rewrite Hcut in Hrun; discriminate Hrun.
Defined.

(** At depth 5 no path is cut, and with every variate at 0.95 the bounce
    ray is cut at its first surface, so that the run ends with a radiance. *)
Lemma indirectedRadiance_diffuse_witness :
  let x := Vec.mk 27 16.5 30.5 in
  let o := Vec.mk 0 0 (-1) in
  let kd := Vec.mk (Q2R 0.9) (Q2R 0.9) (Q2R 0.9) in
  let n := facing_normal x o (sphere_at 5) in
  let '(i, _, s2) := DiffuseBRDF_sample kd n o (fun k => high_stream (S k)) in
  exists L s3,
    receivedRadiance DirectFirst 3 (Ray.mk x i) (5 + 1) true s2 = Some (L, s3) /\
    indirectedRadiance DirectFirst 4 x o (sphere_at 5) 5 true high_stream
    = Some (Vec.scale (Vec.mult L kd) (1 / survival 5), s3).
Proof.
  cbv zeta.
  pose proof (indirectedRadiance_diffuse DirectFirst 3 (Vec.mk 27 16.5 30.5)
                (Vec.mk 0 0 (-1)) (sphere_at 5)
                (Vec.mk (Q2R 0.9) (Q2R 0.9) (Q2R 0.9)) 5 true high_stream)
    as Hthm.
  cbv zeta in Hthm.
  assert (Hs2 : forall k,
             0.9 < snd (DiffuseBRDF_sample (Vec.mk (Q2R 0.9) (Q2R 0.9) (Q2R 0.9))
                          (facing_normal (Vec.mk 27 16.5 30.5) (Vec.mk 0 0 (-1))
                             (sphere_at 5))
                          (Vec.mk 0 0 (-1)) (fun k => high_stream (S k))) k).
  { intros k. unfold DiffuseBRDF_sample, bind, ret, rng. cbv zeta.
    destruct (createLocalCoord _) as [[u v] w]. cbn [snd].
    unfold high_stream. lra. }
  destruct (DiffuseBRDF_sample _ _ _ _) as [[i pdf] s2]. cbn [snd] in Hs2.
  destruct (receivedRadiance_cut DirectFirst (Ray.mk (Vec.mk 27 16.5 30.5) i)
              (5 + 1) true s2) as (L & s3 & HL); [lia | exact Hs2 |].
  exists L, s3. split; [exact HL|].
  rewrite Hthm.
  - now rewrite HL.
  - reflexivity.
  - unfold sphere_at, Vec.dot, Vec.sub. simpl. arith. literals. lra.
  - unfold survival, high_stream. simpl. lra.
  - unfold high_stream. lra.
Defined.
End EstimatorFurtherWitness.

(** ** Binary64: not-a-number *)

Section NotANumber.
Context `{Libm}.
Local Open Scope float_scope.

(** X23.  In binary64 [clamp] hands a NaN back unchanged: both of its
    comparisons are false. *)
Theorem clamp_keeps_nan (x : float) : is_nan x = true -> clamp x = x.
Proof.
  intros Hx. unfold clamp. cbn [ltb lit binary64].
  now rewrite (ltb_nan_l x _ Hx), (ltb_nan_r _ x Hx).
Qed.

(** X24.  In binary64 a direction with a NaN component equals no direction
    under [operator==], not even itself, and the specular [eval] returns the
    zero colour for it. *)
Theorem SpecularBRDF_eval_nan (ks n o i : Vec float) :
  is_nan (Vec.x i) || is_nan (Vec.y i) || is_nan (Vec.z i) = true ->
  Vec.equal i i = false /\
  (forall m : Vec float, Vec.equal i m = false) /\
  SpecularBRDF_eval ks n o i = Vec.zero.
Proof.
  intros Hnan.
  assert (Hne : forall m : Vec float, Vec.equal i m = false).
  { intros m. unfold Vec.equal. cbn [eqb binary64].
    apply orb_true_iff in Hnan. destruct Hnan as [Hnan|Hz].
    - apply orb_true_iff in Hnan. destruct Hnan as [Hx|Hy].
      + now rewrite (eqb_nan_l _ _ Hx).
      + rewrite (eqb_nan_l _ _ Hy). now destruct (PrimFloat.eqb (Vec.x i) (Vec.x m)).
    - rewrite (eqb_nan_l _ _ Hz).
      now destruct (PrimFloat.eqb (Vec.x i) (Vec.x m)),
                   (PrimFloat.eqb (Vec.y i) (Vec.y m)). }
  split; [apply Hne|]. split; [exact Hne|].
  unfold SpecularBRDF_eval. now rewrite Hne.
Qed.

End NotANumber.

Section NotANumberWitness.
Local Open Scope float_scope.
Local Existing Instance libm_uncalled.

Lemma clamp_keeps_nan_witness : clamp nan = nan.
Proof. apply (clamp_keeps_nan (H := libm_uncalled) nan). vm_compute. reflexivity. Defined.

Lemma SpecularBRDF_eval_nan_witness :
  Vec.equal (Vec.mk 0 nan 1) (Vec.mk 0 nan 1) = false /\
  (forall m : Vec float, Vec.equal (Vec.mk 0 nan 1) m = false) /\
  SpecularBRDF_eval (Vec.mk 1 1 1) (Vec.mk 0 0 1) (Vec.mk 0 0 1) (Vec.mk 0 nan 1)
  = Vec.zero.
Proof.
  apply (SpecularBRDF_eval_nan (H := libm_uncalled) (Vec.mk 1 1 1) (Vec.mk 0 0 1)
           (Vec.mk 0 0 1) (Vec.mk 0 nan 1)).
  vm_compute. reflexivity.
Defined.
End NotANumberWitness.
